(** * tontools-js: Builder / Slice / MsgTemplate

    A shallow embedding of the bit-level writer ([Builder]), its reader
    ([Slice]) and the message envelope composer ([MsgTemplate.MessageX]),
    followed by the properties of the encoding that are proved about them.

    Conventions of the embedding:
    - a JavaScript method that mutates [this] and may throw is a function
      [St -> Result A * St]: the state that is returned next to a thrown
      error is the state the object is left in when the exception escapes;
    - a [bigint] is a [Z]; a [number] that holds an integer is a [Z] on which
      every arithmetic result is rounded to the nearest double ([fround]);
    - [Bit[]] is [list Bit], [Cell[]] is [list Cell]. *)

From Stdlib Require Import ZArith List Lia Bool.
From Stdlib Require String.
Import ListNotations.
Local Open Scope Z_scope.
Set Warnings "-register-all".

(* ------------------------------------------------------------------ *)
(** ** Errors and the state-and-exception monad *)

(** The source throws [Error] objects that differ by message; the kinds
    below name the messages. *)
Inductive Error : Type :=
| BitOverflow          (* 'bits overflow' (Builder and Slice), 'skip bits overflow' *)
| RefOverflow          (* 'refs overflow' (Builder and Slice) *)
| InvalidBit           (* 'can't store bit, because it's value doesn't equals 0 nor 1' *)
| RangeError           (* 'can't store an (U)Int, ... allocates more space than provided' *)
| NegativeAmount       (* 'coins value can't be negative' *)
| InvalidAddressFlag   (* 'bad address flag bits' *)
| MalformedPadding.    (* 'incorrectly augmented bits' *)

Inductive Result (A : Type) : Type :=
| Ok (a : A)
| Throw (e : Error).
Arguments Ok {A} a.
Arguments Throw {A} e.

Definition M (St A : Type) : Type := St -> Result A * St.

Definition ret {St A} (a : A) : M St A := fun s => (Ok a, s).

Definition throw {St A} (e : Error) : M St A := fun s => (Throw e, s).

Definition bind {St A B} (m : M St A) (f : A -> M St B) : M St B :=
  fun s => match m s with
           | (Ok a, s') => f a s'
           | (Throw e, s') => (Throw e, s')
           end.

Notation "x <- m ;; k" := (bind m (fun x => k))
  (at level 61, m at next level, right associativity).
Notation "m ;; k" := (bind m (fun _ => k))
  (at level 61, right associativity).

(** [arr.forEach(f)] for a callback that may throw: the calls run in order
    and the first exception stops the loop. *)
Fixpoint forEach {St A} (f : A -> M St unit) (arr : list A) : M St unit :=
  match arr with
  | [] => ret tt
  | x :: rest => f x ;; forEach f rest
  end.

(* ------------------------------------------------------------------ *)
(** ** Bits, cells and JavaScript numbers *)

Definition Bit : Type := bool.

Definition len {A} (l : list A) : Z := Z.of_nat (length l).

(** Modelled from the spec: the node type of [./cell], which is not among
    the sources; "a constructor taking (bits, refs, is-exotic flag)" whose
    bits and refs can be read back. The exotic flag is always [false] here
    and is left out. *)
Inductive Cell : Type :=
| mkCell (bits : list Bit) (refs : list Cell).

Definition cell_bits (c : Cell) : list Bit := match c with mkCell b _ => b end.
Definition cell_refs (c : Cell) : list Cell := match c with mkCell _ r => r end.

Module JsNumber.

(** Rounding of an integer to the nearest double (53 bits of mantissa,
    ties to even). The magnitudes met here stay below 2^1024, the range
    of finite doubles, as slices of cells hold at most 1023 bits. *)
Definition fround (z : Z) : Z :=
  let a := Z.abs z in
  let e := Z.log2 a - 52 in
  if e <=? 0 then z
  else
    let q := Z.shiftr a e in
    let r := Z.land a (Z.ones e) in
    let half := Z.shiftl 1 (e - 1) in
    let q' := if r <? half then q
              else if half <? r then q + 1
              else if Z.even q then q else q + 1 in
    Z.sgn z * Z.shiftl q' e.

Definition add (x y : Z) : Z := fround (x + y).
Definition sub (x y : Z) : Z := fround (x - y).
Definition mul (x y : Z) : Z := fround (x * y).

(** [2 ** i] for an integer [i >= 0]: a power of two is a double. *)
Definition pow2 (i : Z) : Z := 2 ^ i.

Definition toInt32 (z : Z) : Z :=
  let m := z mod 2 ^ 32 in
  if m <? 2 ^ 31 then m else m - 2 ^ 32.

(** [a << count]: both operands go through 32-bit conversion, the shift
    count is taken modulo 32 and the result is a signed 32-bit integer. *)
Definition shl (a count : Z) : Z :=
  toInt32 (Z.shiftl (toInt32 a) (count mod 32)).

End JsNumber.

(* ------------------------------------------------------------------ *)
(** ** Helpers, Address and Coins (external to the sources) *)

Module Helpers.

(** Unsigned value of a bit sequence, most significant bit first. *)
Definition bitsToZ (bits : list Bit) : Z :=
  fold_left (fun acc (bit : Bit) => 2 * acc + Z.b2z bit) bits 0.

(** Modelled from the spec: [bitsToHex] of [../utils/helpers], which is
    not among the sources ("pure functions converting between bit
    sequences, byte arrays, and text", most significant bit first). The
    hexadecimal string is kept as the list of its digit values, one digit
    for every four bits. *)
Fixpoint bitsToHex (bits : list Bit) : list Z :=
  match bits with
  | [] => []
  | b3 :: b2 :: b1 :: b0 :: rest => bitsToZ [b3; b2; b1; b0] :: bitsToHex rest
  | last => [bitsToZ last]
  end.

(** Modelled from the spec: [bitsToInt8] of [../utils/helpers], which is
    not among the sources; the bits read as an "8-bit signed integer". *)
Definition bitsToInt8 (bits : list Bit) : Z :=
  let uint8 := bitsToZ bits in
  if uint8 >=? 128 then uint8 - 256 else uint8.

(** Two hexadecimal digits make a byte. *)
Fixpoint hexToBytes (hex : list Z) : list Z :=
  match hex with
  | hi :: lo :: rest => (16 * hi + lo) :: hexToBytes rest
  | _ => []
  end.

Definition hexToZ (hex : list Z) : Z :=
  fold_left (fun acc digit => 16 * acc + digit) hex 0.

(** [z.toString(16)] of a [bigint] [z >= 0], as the list of its digit
    values; [fuel] bounds the number of digits. *)
Fixpoint toHexDigits (fuel : nat) (z : Z) (acc : list Z) : list Z :=
  match fuel with
  | O => acc
  | S fuel' =>
      if z <? 16 then z :: acc
      else toHexDigits fuel' (z / 16) (z mod 16 :: acc)
  end.

Definition toString16 (z : Z) : list Z :=
  toHexDigits (S (Z.to_nat (Z.log2 z))) z [].

(** [Uint8Array.from(value)]: every element is taken modulo 256. *)
Definition Uint8Array_from (value : list Z) : list Z :=
  map (fun x => x mod 256) value.

End Helpers.

(** Modelled from the spec: the [Address] class of [../address], which is
    not among the sources: "workchain: 8-bit signed integer; hash: 256-bit
    value", the hash being a [Uint8Array] of 32 bytes. *)
Record Address : Type := mkAddress {
  workchain : Z;
  hash : list Z
}.

(** The invariant of an [Address] value. *)
Definition Address_valid (a : Address) : bool :=
  (-128 <=? workchain a) && (workchain a <? 128) &&
  (length (hash a) =? 32)%nat &&
  forallb (fun x => (0 <=? x) && (x <? 256)) (hash a).

(** Modelled from the spec: [new Address(raw)] for the raw form
    [`${workchain}:${hash}`]; the string is kept as the pair of the
    workchain and the digits of the hash. *)
Definition newAddress (raw : Z * list Z) : Address :=
  {| workchain := fst raw; hash := Helpers.hexToBytes (snd raw) |}.

(** [Address.NONE], the "no address" marker. *)
Definition Address_NONE : option Address := None.

(** Modelled from the spec: the [Coins] class of [../coins], which is not
    among the sources: "an arbitrary-precision integer amount", held in
    nanocoins. *)
Record Coins : Type := mkCoins { nano : Z }.

Definition isNegative (c : Coins) : bool := nano c <? 0.
Definition isZero (c : Coins) : bool := nano c =? 0.
Definition toNano (c : Coins) : Z := nano c.

(** [new Coins(0)] and [new Coins(`0x${hex}`, true)]. *)
Definition newCoins0 : Coins := {| nano := 0 |}.
Definition newCoinsHex (hex : list Z) : Coins := {| nano := Helpers.hexToZ hex |}.

(* ------------------------------------------------------------------ *)
(** ** Slice (src/boc/slice.ts) *)

Module Slice.

Record Slice : Type := mkSlice {
  _bits : list Bit;
  _refs : list Cell
}.

(** The getters [bits] and [refs] return copies of the arrays. *)
Definition bits (s : Slice) : list Bit := _bits s.
Definition refs (s : Slice) : list Cell := _refs s.

(** [arr.splice(start, count)] on a local array: the removed elements and
    what is left of the array. *)
Definition splice {A} (start count : nat) (arr : list A) : list A * list A :=
  (firstn count (skipn start arr), firstn start arr ++ skipn (start + count) arr).

(** [arr.splice(start)]: everything from [start] on is removed. *)
Definition spliceFrom {A} (start : nat) (arr : list A) : list A * list A :=
  (skipn start arr, firstn start arr).

(** [flag.every((bit, i) => bit === PATTERN[i])]; an index outside the
    pattern compares with [undefined] and fails. *)
Fixpoint every (flag pattern : list Bit) : bool :=
  match flag, pattern with
  | [], _ => true
  | bit :: flag', p :: pattern' => Bool.eqb bit p && every flag' pattern'
  | _ :: _, [] => false
  end.

(** [bits.reverse().reduce((acc, bit, i) => (bit * (2 ** i) + acc), 0)] *)
Fixpoint reduceUint (reversed : list Bit) (i : Z) (acc : Z) : Z :=
  match reversed with
  | [] => acc
  | bit :: rest =>
      reduceUint rest (i + 1)
        (JsNumber.add (JsNumber.mul (Z.b2z bit) (JsNumber.pow2 i)) acc)
  end.

Definition bitsToUint (bits : list Bit) : Z := reduceUint (rev bits) 0 0.

(** [uint >= int ? (uint - (int * 2)) : uint] with [int = 1 << (size - 1)] *)
Definition uintToInt (uint size : Z) : Z :=
  let int := JsNumber.shl 1 (size - 1) in
  if uint >=? int then JsNumber.sub uint (JsNumber.mul int 2) else uint.

Definition skip (size : Z) : M Slice unit := fun this =>
  if len (_bits this) <? size then (Throw BitOverflow, this)
  else (Ok tt, {| _bits := skipn (Z.to_nat size) (_bits this);
                  _refs := _refs this |}).

Definition loadRef : M Slice Cell := fun this =>
  match _refs this with
  | [] => (Throw RefOverflow, this)
  | ref :: rest => (Ok ref, {| _bits := _bits this; _refs := rest |})
  end.

Definition preloadRef : M Slice Cell := fun this =>
  match _refs this with
  | [] => (Throw RefOverflow, this)
  | ref :: _ => (Ok ref, this)
  end.

Definition loadBit : M Slice Bit := fun this =>
  match _bits this with
  | [] => (Throw BitOverflow, this)
  | bit :: rest => (Ok bit, {| _bits := rest; _refs := _refs this |})
  end.

Definition preloadBit : M Slice Bit := fun this =>
  match _bits this with
  | [] => (Throw BitOverflow, this)
  | bit :: _ => (Ok bit, this)
  end.

Definition loadBits (size : Z) : M Slice (list Bit) := fun this =>
  if (size <=? 0) || (len (_bits this) <? size) then (Throw BitOverflow, this)
  else (Ok (firstn (Z.to_nat size) (_bits this)),
        {| _bits := skipn (Z.to_nat size) (_bits this); _refs := _refs this |}).

Definition preloadBits (size : Z) : M Slice (list Bit) := fun this =>
  if (size <=? 0) || (len (_bits this) <? size) then (Throw BitOverflow, this)
  else (Ok (firstn (Z.to_nat size) (_bits this)), this).

Definition loadUint (size : Z) : M Slice Z :=
  bits <- loadBits size ;;
  ret (bitsToUint bits).

Definition preloadUint (size : Z) : M Slice Z :=
  bits <- preloadBits size ;;
  ret (bitsToUint bits).

Definition loadInt (size : Z) : M Slice Z :=
  uint <- loadUint size ;;
  ret (uintToInt uint size).

Definition preloadInt (size : Z) : M Slice Z :=
  uint <- preloadUint size ;;
  ret (uintToInt uint size).

Section BytesAndStrings.

(** [bitsToBytes] and [bytesToString] of [../utils/helpers] are not
    among the sources; the byte and string readers take them as
    parameters. *)
Variable Uint8Array : Type.
Variable bitsToBytes : list Bit -> Uint8Array.
Variable bytesToString : Uint8Array -> String.string.

Definition loadBytes (size : Z) : M Slice Uint8Array :=
  bits <- loadBits size ;;
  ret (bitsToBytes bits).

Definition preloadBytes (size : Z) : M Slice Uint8Array :=
  bits <- preloadBits size ;;
  ret (bitsToBytes bits).

(** [size = null] is [None]. *)
Definition loadString (size : option Z) : M Slice String.string := fun this =>
  (bytes <- match size with
            | None => loadBytes (len (_bits this))
            | Some size => loadBytes size
            end ;;
   ret (bytesToString bytes)) this.

Definition preloadString (size : option Z) : M Slice String.string := fun this =>
  (bytes <- match size with
            | None => preloadBytes (len (_bits this))
            | Some size => preloadBytes size
            end ;;
   ret (bytesToString bytes)) this.

End BytesAndStrings.

Definition FLAG_ADDRESS_NO : list Bit := [false; false].
Definition FLAG_ADDRESS : list Bit := [true; false].

(** The decoding shared by the two address readers, from
    [const bits = this.preloadBits(size)] to [const raw]. *)
Definition addressRaw (bits : list Bit) : Z * list Z :=
  let '(anycast, bits) := splice 2 1 bits in
  let '(workchainBits, bits) := splice 2 8 bits in
  let workchain := Helpers.bitsToInt8 workchainBits in
  let '(hashBits, bits) := splice 2 256 bits in
  let hash := Helpers.bitsToHex hashBits in
  (workchain, hash).

Definition loadAddress : M Slice (option Address) :=
  flag <- preloadBits 2 ;;
  if every flag FLAG_ADDRESS_NO then
    skip 2 ;; ret Address_NONE
  else if every flag FLAG_ADDRESS then
    let size := 2 + 1 + 8 + 256 in
    bits <- preloadBits size ;;
    let raw := addressRaw bits in
    skip size ;; ret (Some (newAddress raw))
  else throw InvalidAddressFlag.

Definition preloadAddress : M Slice (option Address) :=
  flag <- preloadBits 2 ;;
  if every flag FLAG_ADDRESS_NO then
    ret Address_NONE
  else if every flag FLAG_ADDRESS then
    let size := 2 + 1 + 8 + 256 in
    bits <- preloadBits size ;;
    let raw := addressRaw bits in
    ret (Some (newAddress raw))
  else throw InvalidAddressFlag.

Definition loadCoins : M Slice Coins :=
  length <- preloadUint 4 ;;
  if length =? 0 then
    skip 4 ;; ret newCoins0
  else
    let size := JsNumber.add 4 (JsNumber.mul length 8) in
    bits <- preloadBits size ;;
    let hex := Helpers.bitsToHex (fst (spliceFrom 4 bits)) in
    skip size ;; ret (newCoinsHex hex).

Definition preloadCoins : M Slice Coins :=
  length <- preloadUint 4 ;;
  if length =? 0 then
    ret newCoins0
  else
    let size := JsNumber.add 4 (JsNumber.mul length 8) in
    bits <- preloadBits size ;;
    let hex := Helpers.bitsToHex (fst (spliceFrom 4 bits)) in
    ret (newCoinsHex hex).

End Slice.

(** Modelled from the spec: [cell.parse()] of [./cell], "producing a fresh
    Slice over copies of its bits/refs". *)
Definition parse (c : Cell) : Slice.Slice :=
  Slice.mkSlice (cell_bits c) (cell_refs c).

(* ------------------------------------------------------------------ *)
(** ** Builder (the unnamed source file, src/boc/builder.ts) *)

Module Builder.

Record Builder : Type := mkBuilder {
  _size : Z;
  _refs : list Cell;
  _bits : list Bit
}.

(** [new Builder(size)]; the default size is 1023. *)
Definition new (size : Z) : Builder :=
  {| _size := size; _bits := []; _refs := [] |}.

Definition DEFAULT_SIZE : Z := 1023.

Definition size (this : Builder) : Z := _size this.
Definition bits (this : Builder) : list Bit := _bits this.
Definition refs (this : Builder) : list Cell := _refs this.
Definition remainder (this : Builder) : Z := _size this - len (_bits this).

Definition checkBitsOverflow (size : Z) : M Builder unit := fun this =>
  if size >? remainder this then (Throw BitOverflow, this) else (Ok tt, this).

Definition checkRefsOverflow (size : Z) : M Builder unit := fun this =>
  if size >? 4 - len (_refs this) then (Throw RefOverflow, this) else (Ok tt, this).

(** [this._bits.push(bit)] and [this._refs.push(ref)] *)
Definition pushBit (bit : Bit) : M Builder unit := fun this =>
  (Ok tt, {| _size := _size this; _refs := _refs this; _bits := _bits this ++ [bit] |}).

Definition pushRef (ref : Cell) : M Builder unit := fun this =>
  (Ok tt, {| _size := _size this; _refs := _refs this ++ [ref]; _bits := _bits this |}).

Definition storeRef (ref : Cell) : M Builder unit :=
  checkRefsOverflow 1 ;;
  pushRef ref.

(** The argument is a [Bit | number]: the value is tested at run time. *)
Definition storeBit (bit : Z) : M Builder unit :=
  if negb (bit =? 0) && negb (bit =? 1) then throw InvalidBit
  else
    checkBitsOverflow 1 ;;
    pushBit (bit =? 1).

Definition storeBits (bits : list Bit) : M Builder unit :=
  checkBitsOverflow (len bits) ;;
  forEach storeBit (map Z.b2z bits).

Definition storeSlice (slice : Slice.Slice) : M Builder unit :=
  let bits := Slice.bits slice in
  let refs := Slice.refs slice in
  checkBitsOverflow (len bits) ;;
  checkRefsOverflow (len refs) ;;
  storeBits bits ;;
  forEach storeRef refs.

(** The bits of [value], most significant first:
    [[ ...Array(length) ].map((_el, i) => ((value >> i) & 1n) === 1n).reverse()].
    [Array(length)] throws for a negative length. *)
Definition numberBits (value length : Z) : list Bit :=
  rev (map (fun i => Z.testbit value (Z.of_nat i)) (seq 0 (Z.to_nat length))).

Definition storeNumber (value length : Z) : M Builder unit :=
  if length <? 0 then throw RangeError
  else storeBits (numberBits value length).

Definition storeInt (value length : Z) : M Builder unit :=
  let int := value in
  let intBits := Z.shiftl 1 (length - 1) in
  if (int <? - intBits) || (int >=? intBits) then throw RangeError
  else storeNumber int length.

Definition storeUint (value length : Z) : M Builder unit :=
  let uint := value in
  if (uint <? 0) || (uint >=? Z.shiftl 1 length) then throw RangeError
  else storeNumber uint length.

Definition storeBytes (value : list Z) : M Builder unit :=
  checkBitsOverflow (len value * 8) ;;
  forEach (fun byte => storeUint byte 8) (Helpers.Uint8Array_from value).

Section Strings.

(** [stringToBytes] of [../utils/helpers] is not among the sources. *)
Variable stringToBytes : String.string -> list Z.

Definition storeString (value : String.string) : M Builder unit :=
  let bytes := stringToBytes value in
  storeBytes bytes.

End Strings.

Definition storeAddress (address : option Address) : M Builder unit :=
  match address with
  | None => storeBits [false; false]
  | Some address =>
      let anycast := 0 in
      let addressBitsSize := 2 + 1 + 8 + 256 in
      checkBitsOverflow addressBitsSize ;;
      storeBits [true; false] ;;
      storeUint anycast 1 ;;
      storeInt (workchain address) 8 ;;
      storeBytes (hash address)
  end.

(** [Math.ceil(x / 2)] for an integer [x >= 0] *)
Definition ceilHalf (x : Z) : Z := (x + 1) / 2.

Definition storeCoins (coins : Coins) : M Builder unit :=
  if isNegative coins then throw NegativeAmount
  else if isZero coins then storeUint 0 4
  else
    let length := ceilHalf (len (Helpers.toString16 (toNano coins))) in
    let size := length * 8 in
    let nano := toNano coins in
    let coinsBitsSize := 4 + size in
    checkBitsOverflow coinsBitsSize ;;
    storeUint length 4 ;;
    storeUint nano size.

Definition clone (this : Builder) : Builder :=
  snd (storeBits (_bits this) (new (_size this))).

Inductive Divider : Type := Div4 | Div8.

Definition dividerValue (divider : Divider) : Z :=
  match divider with Div4 => 4 | Div8 => 8 end.

(** [[ ...Array(amount) ].map((_el, i) => (i === 0 ? 1 : 0))] *)
Definition overageBits (amount : Z) : list Bit :=
  map (fun i => Nat.eqb i 0) (seq 0 (Z.to_nat amount)).

Definition augmentBits (bits : list Bit) (divider : Divider) : list Bit :=
  let amount := dividerValue divider - (len bits mod dividerValue divider) in
  let overage := overageBits amount in
  if negb (len overage =? 0) && negb (len overage =? dividerValue divider)
  then bits ++ overage
  else bits.

(** [arr.indexOf(1)]: [None] is [-1]. *)
Fixpoint indexOf1 (arr : list Bit) : option nat :=
  match arr with
  | [] => None
  | bit :: rest => if bit then Some O else option_map S (indexOf1 rest)
  end.

(** [bits.slice(-7)]: the last seven elements, or all of them. *)
Definition sliceLast7 (bits : list Bit) : list Bit :=
  skipn (length bits - 7) bits.

(** [bits.splice(-(index + 1))] removes the last [index + 1] elements of
    [bits] in place; the array that is returned is [bits] itself. *)
Definition rollbackBits (bits : list Bit) : Result (list Bit) :=
  match indexOf1 (rev (sliceLast7 bits)) with
  | None => Throw MalformedPadding
  | Some index => Ok (firstn (length bits - (index + 1)) bits)
  end.

Definition cell (this : Builder) : Cell :=
  mkCell (bits this) (refs this).

End Builder.

(* ------------------------------------------------------------------ *)
(** ** MsgTemplate.MessageX (src/contract/msg-template.ts) *)

Module MsgTemplate.

Import Builder.

Record MessageXOptions : Type := mkMessageXOptions {
  info : Cell;
  init : option Cell;
  body : option Cell
}.

(** The statement [if (init) { ... } else { ... }] of [MessageX]. *)
Definition storeInit (init : option Cell) : M Builder unit :=
  match init with
  | Some init =>
      storeBit 1 ;;
      (fun builder =>
         (* -1 because we need at least 1 bit for the body *)
         (if remainder builder - 1 >=? len (cell_bits init)
          then storeBit 0 ;; storeSlice (parse init)
          else storeBit 1 ;; storeRef init) builder)
  | None => storeBit 0
  end.

(** The statement [if (body) { ... } else { ... }] of [MessageX]. *)
Definition storeBody (body : option Cell) : M Builder unit :=
  match body with
  | Some body =>
      fun builder =>
        (if remainder builder >=? len (cell_bits body)
         then storeBit 0 ;; storeSlice (parse body)
         else storeBit 1 ;; storeRef body) builder
  | None => storeBit 0
  end.

Definition MessageX (options : MessageXOptions) : Result Cell :=
  fst ((storeSlice (parse (info options)) ;;
        storeInit (init options) ;;
        storeBody (body options) ;;
        (fun builder => (Ok (cell builder), builder)))
         (new DEFAULT_SIZE)).

(** A property of an options object that may be left out, with the
    default of the destructuring pattern. *)
Definition orDefault {A} (given : option A) (default : A) : A :=
  match given with
  | Some x => x
  | None => default
  end.

(** [flag ? -1 : 0] *)
Definition boolInt (flag : bool) : Z := if flag then -1 else 0.

Record IntMsgInfo_0Options : Type := mkIntMsgInfo_0Options {
  ihrDisabled : option bool;
  bounce : bool;
  bounced : option bool;
  src : Address;
  dest : Address;
  value : Coins;
  ihrFee : option Coins;
  fwdFee : option Coins;
  createdLt : option Z;
  createdAt : option Z
}.

(** [IntMsgInfo$0] *)
Definition IntMsgInfo_0 (options : IntMsgInfo_0Options) : Result Cell :=
  let zeroCoins := newCoins0 in
  let ihrDisabled := orDefault (ihrDisabled options) true in
  let bounce := bounce options in
  let bounced := orDefault (bounced options) false in
  let src := src options in
  let dest := dest options in
  let value := value options in
  let ihrFee := orDefault (ihrFee options) zeroCoins in
  let fwdFee := orDefault (fwdFee options) zeroCoins in
  let createdLt := orDefault (createdLt options) 0 in
  let createdAt := orDefault (createdAt options) 0 in
  fst ((storeBit 0 ;;
        storeInt (boolInt ihrDisabled) 1 ;;
        storeInt (boolInt bounce) 1 ;;
        storeInt (boolInt bounced) 1 ;;
        storeAddress (Some src) ;;
        storeAddress (Some dest) ;;
        storeCoins value ;;
        storeBit 0 ;;
        storeCoins ihrFee ;;
        storeCoins fwdFee ;;
        storeUint createdLt 64 ;;
        storeUint createdAt 32 ;;
        (fun builder => (Ok (cell builder), builder)))
         (new DEFAULT_SIZE)).

(** The options of [ExtInMsgInfo$10]; all three may be left out. *)
Record ExtInMsgInfo_10Options : Type := mkExtInMsgInfo_10Options {
  extSrc : option Address;
  extDest : option Address;
  importFee : option Coins
}.

Section ExtIn.

(** [Address.NULL], the default of [src] and [dest]: a constant of the
    [Address] class, which is not among the sources. It is a value of the
    argument type of [storeAddress], [Address | null]. *)
Variable Address_NULL : option Address.

(** [ExtInMsgInfo$10] *)
Definition ExtInMsgInfo_10 (options : ExtInMsgInfo_10Options) : Result Cell :=
  let src := match extSrc options with Some a => Some a | None => Address_NULL end in
  let dest := match extDest options with Some a => Some a | None => Address_NULL end in
  let importFee := orDefault (importFee options) newCoins0 in
  fst ((storeBits [true; false] ;;
        storeAddress src ;;
        storeAddress dest ;;
        storeCoins importFee ;;
        (fun builder => (Ok (cell builder), builder)))
         (new DEFAULT_SIZE)).

End ExtIn.

Record StateInitOptions : Type := mkStateInitOptions {
  code : Cell;
  data : option Cell
}.

Definition StateInit (options : StateInitOptions) : Result Cell :=
  let code := code options in
  let data := data options in
  fst ((storeBits [false; false; true] ;;
        storeRef code ;;
        match data with
        | Some data => storeBit 1 ;; storeRef data
        | None => storeBit 0
        end ;;
        storeBit 0 ;;
        (fun builder => (Ok (cell builder), builder)))
         (new DEFAULT_SIZE)).

End MsgTemplate.

(* ------------------------------------------------------------------ *)
(** ** Vocabulary of the statements *)

(** The Builder [this] after [bits] were pushed, after [refs] were pushed. *)
Definition appendBits (this : Builder.Builder) (bits : list Bit) : Builder.Builder :=
  {| Builder._size := Builder._size this;
     Builder._refs := Builder._refs this;
     Builder._bits := Builder._bits this ++ bits |}.

Definition appendRefs (this : Builder.Builder) (refs : list Cell) : Builder.Builder :=
  {| Builder._size := Builder._size this;
     Builder._refs := Builder._refs this ++ refs;
     Builder._bits := Builder._bits this |}.

(** The invariant of the data model: at most [size] bits and four refs. *)
Definition within_bounds (this : Builder.Builder) : Prop :=
  len (Builder._bits this) <= Builder._size this /\ len (Builder._refs this) <= 4.

(** The bits that [storeBytes] writes: eight for every byte. *)
Definition bytesBits (bytes : list Z) : list Bit :=
  flat_map (fun byte => Builder.numberBits (byte mod 256) 8) bytes.

(** The 267 bits that [storeAddress] writes for an address. *)
Definition addressBits (a : Address) : list Bit :=
  [true; false] ++ [false] ++ Builder.numberBits (workchain a) 8 ++ bytesBits (hash a).

(** The number of bytes that [storeCoins] computes for a positive amount. *)
Definition coinsByteLength (c : Coins) : Z :=
  Builder.ceilHalf (len (Helpers.toString16 (toNano c))).

(** The outcome of a call that is either rejected, with the Builder as it
    was, or appends bits and refs that fit. *)
Definition atomic_outcome (this : Builder.Builder)
    (res : Result unit * Builder.Builder) : Prop :=
  (exists e, res = (Throw e, this)) \/
  (exists bits refs,
      res = (Ok tt, appendRefs (appendBits this bits) refs) /\
      len bits <= Builder.remainder this /\
      len refs <= 4 - len (Builder._refs this)).

Section StoreOps.

Variable stringToBytes : String.string -> list Z.

(** A call of one of the public [store*] methods, with its arguments. *)
Inductive StoreOp : Type :=
| OpStoreSlice (slice : Slice.Slice)
| OpStoreRef (ref : Cell)
| OpStoreBit (bit : Z)
| OpStoreBits (bits : list Bit)
| OpStoreInt (value length : Z)
| OpStoreUint (value length : Z)
| OpStoreBytes (value : list Z)
| OpStoreString (value : String.string)
| OpStoreAddress (address : option Address)
| OpStoreCoins (coins : Coins).

Definition runOp (op : StoreOp) : M Builder.Builder unit :=
  match op with
  | OpStoreSlice slice => Builder.storeSlice slice
  | OpStoreRef ref => Builder.storeRef ref
  | OpStoreBit bit => Builder.storeBit bit
  | OpStoreBits bits => Builder.storeBits bits
  | OpStoreInt value length => Builder.storeInt value length
  | OpStoreUint value length => Builder.storeUint value length
  | OpStoreBytes value => Builder.storeBytes value
  | OpStoreString value => Builder.storeString stringToBytes value
  | OpStoreAddress address => Builder.storeAddress address
  | OpStoreCoins coins => Builder.storeCoins coins
  end.

(** The arguments are values of their types: an [Address] has an 8-bit
    signed workchain and a hash of 32 bytes. *)
Definition well_typed (op : StoreOp) : bool :=
  match op with
  | OpStoreAddress (Some address) => Address_valid address
  | _ => true
  end.

(** A sequence of calls on one Builder; a caller that catches a rejected
    call goes on with the Builder as the call left it. *)
Definition runOps (ops : list StoreOp) (this : Builder.Builder) : Builder.Builder :=
  fold_left (fun builder op => snd (runOp op builder)) ops this.

End StoreOps.

Section Readers.

Variable Uint8Array : Type.
Variable bitsToBytes : list Bit -> Uint8Array.
Variable bytesToString : Uint8Array -> String.string.

(** The nine kinds of value that a Slice reads, each with its arguments;
    every kind has a consuming [load*] and a peeking [preload*] method. *)
Inductive Reader : Type -> Type :=
| RRef : Reader Cell
| RBit : Reader Bit
| RBits (size : Z) : Reader (list Bit)
| RInt (size : Z) : Reader Z
| RUint (size : Z) : Reader Z
| RBytes (size : Z) : Reader Uint8Array
| RString (size : option Z) : Reader String.string
| RAddress : Reader (option Address)
| RCoins : Reader Coins.

Definition load {A} (r : Reader A) : M Slice.Slice A :=
  match r with
  | RRef => Slice.loadRef
  | RBit => Slice.loadBit
  | RBits size => Slice.loadBits size
  | RInt size => Slice.loadInt size
  | RUint size => Slice.loadUint size
  | RBytes size => Slice.loadBytes Uint8Array bitsToBytes size
  | RString size => Slice.loadString Uint8Array bitsToBytes bytesToString size
  | RAddress => Slice.loadAddress
  | RCoins => Slice.loadCoins
  end.

Definition preload {A} (r : Reader A) : M Slice.Slice A :=
  match r with
  | RRef => Slice.preloadRef
  | RBit => Slice.preloadBit
  | RBits size => Slice.preloadBits size
  | RInt size => Slice.preloadInt size
  | RUint size => Slice.preloadUint size
  | RBytes size => Slice.preloadBytes Uint8Array bitsToBytes size
  | RString size => Slice.preloadString Uint8Array bitsToBytes bytesToString size
  | RAddress => Slice.preloadAddress
  | RCoins => Slice.preloadCoins
  end.

End Readers.

(** [slice'] holds no more bits and no more refs than [slice]. *)
Definition no_longer_than (slice' slice : Slice.Slice) : Prop :=
  len (Slice._bits slice') <= len (Slice._bits slice) /\
  len (Slice._refs slice') <= len (Slice._refs slice).

(** Unsigned value of a bit sequence, least significant bit first. *)
Fixpoint leValue (reversed : list Bit) : Z :=
  match reversed with
  | [] => 0
  | bit :: rest => Z.b2z bit + 2 * leValue rest
  end.

(** What a reader returns on a Slice over the cell of a new Builder of the
    default size on which [store] was called. *)
Definition readBack {A} (store : M Builder.Builder unit)
    (reader : M Slice.Slice A) : Result A :=
  fst (reader (parse (Builder.cell (snd (store (Builder.new Builder.DEFAULT_SIZE)))))).

(** The number of bits that [storeCoins] needs: the length nibble alone
    for zero, the nibble and the bytes of the amount otherwise. *)
Definition coinsBitsSize (c : Coins) : Z :=
  if isZero c then 4 else 4 + coinsByteLength c * 8.

(** The Builder of [MessageX] once the header cell [info] is merged in. *)
Definition afterInfo (info : Cell) : Builder.Builder :=
  {| Builder._size := Builder.DEFAULT_SIZE;
     Builder._refs := cell_refs info;
     Builder._bits := cell_bits info |}.

(** What [MessageX] returns when, from the Builder [builder] on, it runs
    the stores [m], then the body statement and [builder.cell()]. *)
Definition continueFrom (m : M Builder.Builder unit) (body : option Cell)
    (builder : Builder.Builder) : Result Cell :=
  fst ((m ;; MsgTemplate.storeBody body ;;
        (fun builder => (Ok (Builder.cell builder), builder))) builder).

(** The bits that [storeAddress] writes: two for null, 267 otherwise. *)
Definition addressFieldBits (address : option Address) : list Bit :=
  match address with
  | None => [false; false]
  | Some a => addressBits a
  end.

(** The bits that [storeCoins] writes for an amount it accepts. *)
Definition coinsFieldBits (c : Coins) : list Bit :=
  if isZero c then Builder.numberBits 0 4
  else Builder.numberBits (coinsByteLength c) 4 ++
       Builder.numberBits (nano c) (coinsByteLength c * 8).

(** An amount that [storeCoins] accepts: not negative and below 2^120. *)
Definition Coins_storable (c : Coins) : bool :=
  (0 <=? nano c) && (nano c <? 2 ^ 120).

(** A field of a cell: what is stored, with the width where the reader
    needs one. [storeField] is the Builder call that writes the field,
    [loadField] the Slice call that reads a field of that kind and width. *)
Inductive Field : Type :=
| FBit (bit : Bit)
| FBits (bits : list Bit)
| FUint (value length : Z)
| FInt (value length : Z)
| FAddress (address : option Address)
| FCoins (coins : Coins).

Inductive Value : Type :=
| VBit (bit : Bit)
| VBits (bits : list Bit)
| VNumber (number : Z)
| VAddress (address : option Address)
| VCoins (coins : Coins).

Definition storeField (f : Field) : M Builder.Builder unit :=
  match f with
  | FBit bit => Builder.storeBit (Z.b2z bit)
  | FBits bits => Builder.storeBits bits
  | FUint value length => Builder.storeUint value length
  | FInt value length => Builder.storeInt value length
  | FAddress address => Builder.storeAddress address
  | FCoins coins => Builder.storeCoins coins
  end.

Definition loadField (f : Field) : M Slice.Slice Value :=
  match f with
  | FBit _ => read <- Slice.loadBit ;; ret (VBit read)
  | FBits bits => read <- Slice.loadBits (len bits) ;; ret (VBits read)
  | FUint _ length => read <- Slice.loadUint length ;; ret (VNumber read)
  | FInt _ length => read <- Slice.loadInt length ;; ret (VNumber read)
  | FAddress _ => read <- Slice.loadAddress ;; ret (VAddress read)
  | FCoins _ => read <- Slice.loadCoins ;; ret (VCoins read)
  end.

Fixpoint loadFields (fs : list Field) : M Slice.Slice (list Value) :=
  match fs with
  | [] => ret []
  | f :: rest =>
      read <- loadField f ;;
      reads <- loadFields rest ;;
      ret (read :: reads)
  end.

Definition fieldValue (f : Field) : Value :=
  match f with
  | FBit bit => VBit bit
  | FBits bits => VBits bits
  | FUint value _ => VNumber value
  | FInt value _ => VNumber value
  | FAddress address => VAddress address
  | FCoins coins => VCoins coins
  end.

Definition fieldBits (f : Field) : list Bit :=
  match f with
  | FBit bit => [bit]
  | FBits bits => bits
  | FUint value length => Builder.numberBits value length
  | FInt value length => Builder.numberBits value length
  | FAddress address => addressFieldBits address
  | FCoins coins => coinsFieldBits coins
  end.

(** The fields that are read back as they were written: a single bit; a
    bit string of at least one bit;
    an unsigned value below 2^53 that fits its width; a signed value that
    fits a width of at most 31; an address with an 8-bit signed workchain
    and 32 bytes of hash, or null; an amount below 2^120. *)
Definition field_ok (f : Field) : bool :=
  match f with
  | FBit _ => true
  | FBits bits => 1 <=? len bits
  | FUint value length =>
      (1 <=? length) && (0 <=? value) && (value <? 2 ^ length) && (value <? 2 ^ 53)
  | FInt value length =>
      (1 <=? length) && (length <=? 31) &&
      (- 2 ^ (length - 1) <=? value) && (value <? 2 ^ (length - 1))
  | FAddress None => true
  | FAddress (Some a) => Address_valid a
  | FCoins coins => Coins_storable coins
  end.

(** The stores of a list of fields, in order, followed by [k]. *)
Definition storeThen {A} (fs : list Field) (k : M Builder.Builder A)
    : M Builder.Builder A :=
  fold_right (fun f k => storeField f ;; k) k fs.

(** The fields of the cell of [ExtInMsgInfo$10], in order. *)
Definition extInFields (Address_NULL : option Address)
    (options : MsgTemplate.ExtInMsgInfo_10Options) : list Field :=
  [FBits [true; false];
   FAddress (match MsgTemplate.extSrc options with
             | Some a => Some a
             | None => Address_NULL
             end);
   FAddress (match MsgTemplate.extDest options with
             | Some a => Some a
             | None => Address_NULL
             end);
   FCoins (MsgTemplate.orDefault (MsgTemplate.importFee options) newCoins0)].

(** The fields of the cell of [IntMsgInfo$0], in order. *)
Definition intMsgFields (options : MsgTemplate.IntMsgInfo_0Options) : list Field :=
  [FBit false;
   FInt (MsgTemplate.boolInt
           (MsgTemplate.orDefault (MsgTemplate.ihrDisabled options) true)) 1;
   FInt (MsgTemplate.boolInt (MsgTemplate.bounce options)) 1;
   FInt (MsgTemplate.boolInt
           (MsgTemplate.orDefault (MsgTemplate.bounced options) false)) 1;
   FAddress (Some (MsgTemplate.src options));
   FAddress (Some (MsgTemplate.dest options));
   FCoins (MsgTemplate.value options);
   FBit false;
   FCoins (MsgTemplate.orDefault (MsgTemplate.ihrFee options) newCoins0);
   FCoins (MsgTemplate.orDefault (MsgTemplate.fwdFee options) newCoins0);
   FUint (MsgTemplate.orDefault (MsgTemplate.createdLt options) 0) 64;
   FUint (MsgTemplate.orDefault (MsgTemplate.createdAt options) 0) 32].

(** [after] is [before] with bits and refs appended, and is within its
    bounds. *)
Definition grows (before after : Builder.Builder) : Prop :=
  within_bounds after /\
  exists bits refs, after = appendRefs (appendBits before bits) refs.

(** The padding that [augmentBits] adds: a single 1, then [k] zeros. *)
Definition padding (k : nat) : list Bit := true :: repeat false k.

(* ------------------------------------------------------------------ *)
(** * Properties *)

(** ** Lists and lengths *)

Lemma len_app {A} (l1 l2 : list A) : len (l1 ++ l2) = len l1 + len l2.
Proof. unfold len. rewrite length_app. lia. Qed.

Lemma len_nonneg {A} (l : list A) : 0 <= len l.
Proof. unfold len. lia. Qed.

Lemma len_cons {A} (x : A) (l : list A) : len (x :: l) = 1 + len l.
Proof. unfold len. cbn [length]. lia. Qed.

(** Goals about lengths, once the list operations are unfolded. *)
Ltac solve_len :=
  unfold len in *; cbn [length Builder._bits Builder._refs Builder._size] in *;
  repeat rewrite ?length_app, ?length_rev, ?length_map, ?length_seq,
                 ?repeat_length in *;
  cbn [length] in *; lia.

(** Case analysis on the comparison that guards the goal. *)
Ltac split_if :=
  match goal with
  | |- context [if ?x >? ?y then _ else _] => destruct (Z.gtb_spec x y)
  | |- context [if ?x >=? ?y then _ else _] => destruct (Z.geb_spec x y)
  | |- context [if ?x <? ?y then _ else _] => destruct (Z.ltb_spec x y)
  | |- context [if ?x <=? ?y then _ else _] => destruct (Z.leb_spec x y)
  | |- context [if ?x =? ?y then _ else _] => destruct (Z.eqb_spec x y)
  end.

Lemma appendBits_nil this : appendBits this [] = this.
Proof. destruct this. unfold appendBits. cbn. now rewrite app_nil_r. Qed.

Lemma appendRefs_nil this : appendRefs this [] = this.
Proof. destruct this. unfold appendRefs. cbn. now rewrite app_nil_r. Qed.

Lemma appendBits_app this l1 l2 :
  appendBits (appendBits this l1) l2 = appendBits this (l1 ++ l2).
Proof. unfold appendBits. cbn. now rewrite app_assoc. Qed.

Lemma appendRefs_app this r1 r2 :
  appendRefs (appendRefs this r1) r2 = appendRefs this (r1 ++ r2).
Proof. unfold appendRefs. cbn. now rewrite app_assoc. Qed.

Lemma remainder_appendBits this l :
  Builder.remainder (appendBits this l) = Builder.remainder this - len l.
Proof. unfold Builder.remainder, appendBits. cbn. rewrite len_app. lia. Qed.

Lemma remainder_appendRefs this r :
  Builder.remainder (appendRefs this r) = Builder.remainder this.
Proof. reflexivity. Qed.

(** ** What each store operation of the Builder does *)

Lemma storeBit_b2z (x : Bit) this :
  Builder.storeBit (Z.b2z x) this =
  if 1 >? Builder.remainder this then (Throw BitOverflow, this)
  else (Ok tt, appendBits this [x]).
Proof.
  unfold Builder.storeBit, Builder.checkBitsOverflow, Builder.pushBit, bind.
  destruct x; cbn; destruct (1 >? Builder.remainder this); reflexivity.
Qed.

Lemma forEach_storeBit l : forall this,
  len l <= Builder.remainder this ->
  forEach Builder.storeBit (map Z.b2z l) this = (Ok tt, appendBits this l).
Proof.
  induction l as [|x l IH]; intros this Hroom.
  - cbn. now rewrite appendBits_nil.
  - rewrite len_cons in Hroom. pose proof (len_nonneg l).
    cbn [map forEach]. unfold bind at 1. rewrite storeBit_b2z.
    destruct (Z.gtb_spec 1 (Builder.remainder this)); [lia|].
    rewrite IH by (rewrite remainder_appendBits; solve_len).
    now rewrite appendBits_app.
Qed.

Lemma storeBits_run l this :
  Builder.storeBits l this =
  if len l >? Builder.remainder this then (Throw BitOverflow, this)
  else (Ok tt, appendBits this l).
Proof.
  unfold Builder.storeBits, bind, Builder.checkBitsOverflow.
  destruct (Z.gtb_spec (len l) (Builder.remainder this)); [reflexivity|].
  now apply forEach_storeBit.
Qed.

Lemma storeRef_run c this :
  Builder.storeRef c this =
  if 1 >? 4 - len (Builder._refs this) then (Throw RefOverflow, this)
  else (Ok tt, appendRefs this [c]).
Proof.
  unfold Builder.storeRef, bind, Builder.checkRefsOverflow, Builder.pushRef.
  destruct (1 >? 4 - len (Builder._refs this)); reflexivity.
Qed.

Lemma forEach_storeRef r : forall this,
  len r <= 4 - len (Builder._refs this) ->
  forEach Builder.storeRef r this = (Ok tt, appendRefs this r).
Proof.
  induction r as [|c r IH]; intros this Hroom.
  - cbn. now rewrite appendRefs_nil.
  - rewrite len_cons in Hroom. pose proof (len_nonneg r).
    cbn [forEach]. unfold bind at 1. rewrite storeRef_run.
    destruct (Z.gtb_spec 1 (4 - len (Builder._refs this))); [lia|].
    rewrite IH by (unfold appendRefs; solve_len).
    now rewrite appendRefs_app.
Qed.

Lemma storeSlice_run slice this :
  Builder.storeSlice slice this =
  if len (Slice.bits slice) >? Builder.remainder this then (Throw BitOverflow, this)
  else if len (Slice.refs slice) >? 4 - len (Builder._refs this)
       then (Throw RefOverflow, this)
       else (Ok tt, appendRefs (appendBits this (Slice.bits slice)) (Slice.refs slice)).
Proof.
  unfold Builder.storeSlice, bind, Builder.checkBitsOverflow, Builder.checkRefsOverflow.
  destruct (Z.gtb_spec (len (Slice.bits slice)) (Builder.remainder this)); [reflexivity|].
  destruct (Z.gtb_spec (len (Slice.refs slice)) (4 - len (Builder._refs this)));
    [reflexivity|].
  rewrite storeBits_run.
  destruct (Z.gtb_spec (len (Slice.bits slice)) (Builder.remainder this)); [lia|].
  now apply forEach_storeRef.
Qed.

Lemma length_numberBits value length :
  len (Builder.numberBits value length) = Z.max 0 length.
Proof.
  unfold len, Builder.numberBits.
  rewrite length_rev, length_map, length_seq. lia.
Qed.

(** Goals about the room that is left in a Builder. *)
Ltac room :=
  rewrite ?length_numberBits in *; unfold len in *; cbn [length] in *; lia.

Lemma storeUint_run value length this :
  Builder.storeUint value length this =
  if (value <? 0) || (value >=? 2 ^ length) then (Throw RangeError, this)
  else if length <? 0 then (Throw RangeError, this)
       else Builder.storeBits (Builder.numberBits value length) this.
Proof.
  unfold Builder.storeUint, Builder.storeNumber. rewrite Z.shiftl_1_l.
  destruct ((value <? 0) || (value >=? 2 ^ length)); [reflexivity|].
  destruct (length <? 0); reflexivity.
Qed.

Lemma storeInt_run value length this :
  Builder.storeInt value length this =
  if (value <? - 2 ^ (length - 1)) || (value >=? 2 ^ (length - 1))
  then (Throw RangeError, this)
  else if length <? 0 then (Throw RangeError, this)
       else Builder.storeBits (Builder.numberBits value length) this.
Proof.
  unfold Builder.storeInt, Builder.storeNumber. rewrite Z.shiftl_1_l.
  destruct ((value <? - 2 ^ (length - 1)) || (value >=? 2 ^ (length - 1)));
    [reflexivity|].
  destruct (length <? 0); reflexivity.
Qed.

(** ** Padding: [augmentBits] and [rollbackBits] *)

Lemma map_eqb0_seq k : forall j,
  map (fun i => Nat.eqb i 0) (seq (S j) k) = repeat false k.
Proof.
  induction k as [|k IH]; intros j; [reflexivity|].
  cbn [seq map repeat]. now rewrite IH.
Qed.

Lemma overageBits_padding amount :
  1 <= amount -> Builder.overageBits amount = padding (Z.to_nat (amount - 1)).
Proof.
  intros Hpos. unfold Builder.overageBits, padding.
  replace (Z.to_nat amount) with (S (Z.to_nat (amount - 1))) by lia.
  cbn [seq map Nat.eqb]. now rewrite map_eqb0_seq.
Qed.

Lemma len_padding k : len (padding k) = 1 + Z.of_nat k.
Proof. unfold padding. solve_len. Qed.

Lemma dividerValue_cases d :
  Builder.dividerValue d = 4 \/ Builder.dividerValue d = 8.
Proof. destruct d; [left|right]; reflexivity. Qed.

Lemma augmentBits_run bits d :
  Builder.augmentBits bits d =
  if len bits mod Builder.dividerValue d =? 0 then bits
  else bits ++ padding (Z.to_nat (Builder.dividerValue d
                                  - len bits mod Builder.dividerValue d - 1)).
Proof.
  unfold Builder.augmentBits.
  assert (Hd : 0 < Builder.dividerValue d) by (destruct d; reflexivity).
  pose proof (Z.mod_pos_bound (len bits) _ Hd) as Hr.
  set (r := len bits mod Builder.dividerValue d) in *.
  rewrite overageBits_padding by lia. rewrite len_padding.
  replace (1 + Z.of_nat (Z.to_nat (Builder.dividerValue d - r - 1)))
    with (Builder.dividerValue d - r) by lia.
  replace (Builder.dividerValue d - r - 1 + 1 - 1)
    with (Builder.dividerValue d - r - 1) by lia.
  destruct (Z.eqb_spec r 0) as [Hz|Hnz].
  - rewrite Hz, Z.sub_0_r, Z.eqb_refl, andb_false_r. reflexivity.
  - destruct (Z.eqb_spec (Builder.dividerValue d - r) 0); [lia|].
    destruct (Z.eqb_spec (Builder.dividerValue d - r) (Builder.dividerValue d));
      [lia|].
    cbn [negb andb].
    now replace (Builder.dividerValue d - r - 1 + 1 - 1)
      with (Builder.dividerValue d - r - 1) by lia.
Qed.

Lemma indexOf1_firstn k : forall n q,
  (k < n)%nat ->
  Builder.indexOf1 (firstn n (repeat false k ++ true :: q)) = Some k.
Proof.
  induction k as [|k IH]; intros n q Hlt;
    (destruct n as [|n]; [lia|]); cbn.
  - reflexivity.
  - rewrite IH by lia. reflexivity.
Qed.

Lemma rollbackBits_padding bits k :
  (k < 7)%nat -> Builder.rollbackBits (bits ++ padding k) = Ok bits.
Proof.
  intros Hk. unfold Builder.rollbackBits, Builder.sliceLast7.
  rewrite <- firstn_rev. unfold padding.
  rewrite rev_app_distr. cbn [rev]. rewrite rev_repeat, <- !app_assoc.
  cbn [app]. rewrite indexOf1_firstn by assumption.
  rewrite length_app. cbn [length]. rewrite repeat_length.
  replace (length bits + S k - (k + 1))%nat with (length bits + 0)%nat by lia.
  rewrite firstn_app_2. cbn. now rewrite app_nil_r.
Qed.

(** C1, as amended. When the length of [bits] is not a multiple of the
    divider (4 or 8), removing the augmentation of [augmentBits(bits, divider)]
    with [rollbackBits] gives back exactly [bits]. *)
Theorem rollbackBits_augmentBits bits d :
  len bits mod Builder.dividerValue d <> 0 ->
  Builder.rollbackBits (Builder.augmentBits bits d) = Ok bits.
Proof.
  intros Hnz. rewrite augmentBits_run.
  destruct (Z.eqb_spec (len bits mod Builder.dividerValue d) 0); [contradiction|].
  apply rollbackBits_padding.
  assert (Hd : 0 < Builder.dividerValue d) by (destruct d; reflexivity).
  pose proof (Z.mod_pos_bound (len bits) _ Hd).
  destruct (dividerValue_cases d); lia.
Qed.

Lemma rollbackBits_augmentBits_witness :
  len [true; false; true] mod Builder.dividerValue Builder.Div8 <> 0 /\
  Builder.rollbackBits (Builder.augmentBits [true; false; true] Builder.Div8)
  = Ok [true; false; true].
Proof.
  split; [discriminate | apply (rollbackBits_augmentBits [true; false; true] Builder.Div8);
                         discriminate].
Defined.

(** C1 as stated fails on a sequence whose length is already a multiple of
    the divider: [augmentBits] returns the eight bits as they are, and
    [rollbackBits] then cuts the sequence at its own last 1; on the empty
    sequence [rollbackBits] throws. *)
Lemma rollbackBits_augmentBits_aligned :
  let bits := [true; false; false; false; false; false; false; true] in
  Builder.rollbackBits (Builder.augmentBits bits Builder.Div8)
  = Ok [true; false; false; false; false; false; false] /\
  Builder.rollbackBits (Builder.augmentBits bits Builder.Div8) <> Ok bits /\
  Builder.rollbackBits (Builder.augmentBits [] Builder.Div4) = Throw MalformedPadding.
Proof. cbv. repeat split; discriminate. Qed.

(** C2, as amended. For a divider of 4 or 8: when the length of [bits] is
    not a multiple of the divider, [augmentBits] returns [bits] followed by a
    single 1 and then zeros, up to the next multiple of the divider (between
    1 and divider - 1 bits are added); when the length is already a multiple
    of the divider, it returns [bits] unchanged, with no padding at all. *)
Theorem augmentBits_spec bits d :
  let divider := Builder.dividerValue d in
  let k := Z.to_nat (divider - len bits mod divider - 1) in
  (len bits mod divider <> 0 ->
     Builder.augmentBits bits d = bits ++ padding k /\
     len (Builder.augmentBits bits d) = divider * (len bits / divider + 1) /\
     len bits < len (Builder.augmentBits bits d) < len bits + divider) /\
  (len bits mod divider = 0 -> Builder.augmentBits bits d = bits).
Proof.
  intros divider k. subst k. rewrite augmentBits_run. fold divider.
  assert (Hd : 0 < divider) by (destruct d; reflexivity).
  pose proof (Z.mod_pos_bound (len bits) _ Hd) as Hr.
  pose proof (Z.div_mod (len bits) divider ltac:(lia)) as Hdm.
  destruct (Z.eqb_spec (len bits mod divider) 0) as [Hz|Hnz].
  - split; [intros; contradiction | reflexivity].
  - split; [intros _ | intros; contradiction].
    rewrite len_app, len_padding. repeat split; lia.
Qed.

Lemma augmentBits_spec_witness :
  Builder.augmentBits [true; true; false] Builder.Div4 = [true; true; false; true] /\
  Builder.augmentBits [true; true; false; true] Builder.Div4 = [true; true; false; true].
Proof.
  split.
  - apply (proj1 (augmentBits_spec [true; true; false] Builder.Div4)). discriminate.
  - apply (proj2 (augmentBits_spec [true; true; false; true] Builder.Div4)). reflexivity.
Defined.

(** C2 as stated fails: eight bits augmented for a divider of 8 stay eight
    bits, where the claim promises sixteen. *)
Lemma augmentBits_aligned_no_padding :
  let bits := [true; false; true; true; false; false; true; false] in
  len bits mod 8 = 0 /\
  Builder.augmentBits bits Builder.Div8 = bits /\
  len (Builder.augmentBits bits Builder.Div8) <> len bits + 8.
Proof. cbv. repeat split; discriminate. Qed.

(** ** Integers: range checks of [storeUint] and [storeInt] *)

Lemma storeBits_not_RangeError l this :
  fst (Builder.storeBits l this) <> Throw RangeError.
Proof.
  rewrite storeBits_run.
  destruct (len l >? Builder.remainder this); discriminate.
Qed.

Lemma storeBits_unchanged l this e :
  fst (Builder.storeBits l this) = Throw e -> snd (Builder.storeBits l this) = this.
Proof.
  rewrite storeBits_run.
  destruct (len l >? Builder.remainder this); [reflexivity | discriminate].
Qed.

(** C8. With a width [length >= 0], [storeUint(value, length)] throws the
    range error exactly when [value < 0] or [value >= 2^length]; with a width
    [length >= 1], [storeInt(value, length)] throws it exactly when
    [value < -2^(length-1)] or [value >= 2^(length-1)]; and whenever either
    call throws, the Builder is left as it was. *)
Theorem storeUint_storeInt_range this value length :
  (0 <= length ->
     (fst (Builder.storeUint value length this) = Throw RangeError
      <-> value < 0 \/ value >= 2 ^ length)) /\
  (0 < length ->
     (fst (Builder.storeInt value length this) = Throw RangeError
      <-> value < - 2 ^ (length - 1) \/ value >= 2 ^ (length - 1))) /\
  (forall e, fst (Builder.storeUint value length this) = Throw e ->
             snd (Builder.storeUint value length this) = this) /\
  (forall e, fst (Builder.storeInt value length this) = Throw e ->
             snd (Builder.storeInt value length this) = this).
Proof.
  rewrite storeUint_run, storeInt_run.
  repeat split.
  - destruct (Z.ltb_spec value 0); [intros; lia|].
    destruct (Z.geb_spec value (2 ^ length)); [intros; lia|].
    cbn [orb]. destruct (Z.ltb_spec length 0); [lia|].
    intros Habs. now apply storeBits_not_RangeError in Habs.
  - destruct (Z.ltb_spec value 0); [reflexivity|].
    destruct (Z.geb_spec value (2 ^ length)); [reflexivity|]. lia.
  - destruct (Z.ltb_spec value (- 2 ^ (length - 1))); [intros; lia|].
    destruct (Z.geb_spec value (2 ^ (length - 1))); [intros; lia|].
    cbn [orb]. destruct (Z.ltb_spec length 0); [lia|].
    intros Habs. now apply storeBits_not_RangeError in Habs.
  - destruct (Z.ltb_spec value (- 2 ^ (length - 1))); [reflexivity|].
    destruct (Z.geb_spec value (2 ^ (length - 1))); [reflexivity|]. lia.
  - intros e.
    destruct ((value <? 0) || (value >=? 2 ^ length)); [reflexivity|].
    destruct (length <? 0); [reflexivity|]. apply storeBits_unchanged.
  - intros e.
    destruct ((value <? - 2 ^ (length - 1)) || (value >=? 2 ^ (length - 1)));
      [reflexivity|].
    destruct (length <? 0); [reflexivity|]. apply storeBits_unchanged.
Qed.

Lemma storeUint_storeInt_range_witness :
  (fst (Builder.storeUint (2 ^ 8) 8 (Builder.new 1023)) = Throw RangeError /\
   snd (Builder.storeUint (2 ^ 8) 8 (Builder.new 1023)) = Builder.new 1023) /\
  (fst (Builder.storeInt (2 ^ 7) 8 (Builder.new 1023)) = Throw RangeError /\
   snd (Builder.storeInt (2 ^ 7) 8 (Builder.new 1023)) = Builder.new 1023) /\
  fst (Builder.storeInt (- 2 ^ 7) 8 (Builder.new 1023)) <> Throw RangeError.
Proof.
  pose proof (storeUint_storeInt_range (Builder.new 1023) (2 ^ 8) 8)
    as (Hu & _ & Hu' & _).
  pose proof (storeUint_storeInt_range (Builder.new 1023) (2 ^ 7) 8)
    as (_ & Hi & _ & Hi').
  pose proof (storeUint_storeInt_range (Builder.new 1023) (- 2 ^ 7) 8)
    as (_ & Hn & _ & _).
  assert (Eu : fst (Builder.storeUint (2 ^ 8) 8 (Builder.new 1023)) = Throw RangeError)
    by (apply Hu; lia).
  assert (Ei : fst (Builder.storeInt (2 ^ 7) 8 (Builder.new 1023)) = Throw RangeError)
    by (apply Hi; [lia | right; cbn; lia]).
  split; [exact (conj Eu (Hu' _ Eu)) | split; [exact (conj Ei (Hi' _ Ei)) |]].
  intros Habs. apply Hn in Habs; [|lia]. cbn in Habs. lia.
Defined.

(** ** Bytes, addresses and coins on the Builder side *)

Lemma forEach_storeUint8 value : forall this,
  len value * 8 <= Builder.remainder this ->
  forEach (fun byte => Builder.storeUint byte 8) (Helpers.Uint8Array_from value) this
  = (Ok tt, appendBits this (bytesBits value)).
Proof.
  induction value as [|x value IH]; intros this Hroom.
  - cbn. now rewrite appendBits_nil.
  - rewrite len_cons in Hroom. pose proof (len_nonneg value).
    cbn [Helpers.Uint8Array_from map forEach]. unfold bind at 1.
    rewrite storeUint_run.
    pose proof (Z.mod_pos_bound x 256 ltac:(lia)) as Hx.
    destruct (Z.ltb_spec (x mod 256) 0); [lia|].
    destruct (Z.geb_spec (x mod 256) (2 ^ 8)); [cbn in *; lia|].
    cbn [orb]. change (8 <? 0) with false. cbv iota.
    rewrite storeBits_run, length_numberBits.
    destruct (Z.gtb_spec (Z.max 0 8) (Builder.remainder this)); [lia|].
    fold (Helpers.Uint8Array_from value).
    rewrite IH by (rewrite remainder_appendBits, length_numberBits; lia).
    now rewrite appendBits_app.
Qed.

Lemma storeBytes_run value this :
  Builder.storeBytes value this =
  if len value * 8 >? Builder.remainder this then (Throw BitOverflow, this)
  else (Ok tt, appendBits this (bytesBits value)).
Proof.
  unfold Builder.storeBytes, bind, Builder.checkBitsOverflow.
  destruct (Z.gtb_spec (len value * 8) (Builder.remainder this)); [reflexivity|].
  now apply forEach_storeUint8.
Qed.

Lemma len_bytesBits bytes : len (bytesBits bytes) = len bytes * 8.
Proof.
  induction bytes as [|x bytes IH]; [reflexivity|].
  unfold bytesBits in *. cbn [flat_map].
  rewrite len_app, IH, length_numberBits, len_cons. lia.
Qed.

Lemma Address_valid_spec a :
  Address_valid a = true ->
  -128 <= workchain a < 128 /\ len (hash a) = 32 /\
  Forall (fun x => 0 <= x < 256) (hash a).
Proof.
  unfold Address_valid. rewrite !andb_true_iff.
  intros [[[Hlo Hhi] Hlen] Hall].
  apply Nat.eqb_eq in Hlen. repeat split; try lia.
  - unfold len. lia.
  - apply Forall_forall. intros x Hin.
    rewrite forallb_forall in Hall. specialize (Hall x Hin).
    apply andb_true_iff in Hall. lia.
Qed.

Lemma len_addressBits a :
  len (hash a) = 32 -> len (addressBits a) = 267.
Proof.
  intros Hlen. unfold addressBits.
  rewrite !len_app, length_numberBits, len_bytesBits, Hlen. reflexivity.
Qed.

Lemma storeAddress_run a this :
  Address_valid a = true ->
  Builder.storeAddress (Some a) this =
  if 267 >? Builder.remainder this then (Throw BitOverflow, this)
  else (Ok tt, appendBits this (addressBits a)).
Proof.
  intros Hvalid. apply Address_valid_spec in Hvalid as (Hwc & Hlen & _).
  unfold Builder.storeAddress. cbv zeta. change (2 + 1 + 8 + 256) with 267.
  unfold bind at 1, Builder.checkBitsOverflow.
  split_if; [reflexivity|].
  unfold bind at 1. rewrite storeBits_run.
  split_if; [room|].
  unfold bind at 1. rewrite storeUint_run.
  change ((0 <? 0) || (0 >=? 2 ^ 1)) with false. change (1 <? 0) with false.
  cbv iota.
  rewrite storeBits_run, remainder_appendBits.
  split_if; [room|].
  unfold bind at 1. rewrite storeInt_run.
  destruct (Z.ltb_spec (workchain a) (- 2 ^ (8 - 1))); [room|].
  destruct (Z.geb_spec (workchain a) (2 ^ (8 - 1))); [room|].
  cbn [orb]. change (8 <? 0) with false. cbv iota.
  rewrite storeBits_run, !remainder_appendBits, length_numberBits.
  split_if; [room|].
  rewrite storeBytes_run, !remainder_appendBits, length_numberBits, Hlen.
  split_if; [room|].
  rewrite !appendBits_app. reflexivity.
Qed.

(** The number of hexadecimal digits of a positive integer. *)
Lemma toHexDigits_length fuel : forall z acc,
  0 < z < 16 ^ Z.of_nat fuel ->
  exists h, length (Helpers.toHexDigits fuel z acc) = (S h + length acc)%nat /\
            16 ^ Z.of_nat h <= z < 16 ^ Z.of_nat (S h).
Proof.
  induction fuel as [|fuel IH]; intros z acc Hz.
  - cbn in Hz. lia.
  - cbn [Helpers.toHexDigits]. destruct (Z.ltb_spec z 16) as [Hsmall|Hbig].
    + exists O. cbn. lia.
    + rewrite Nat2Z.inj_succ, Z.pow_succ_r in Hz by lia.
      destruct (IH (z / 16) (z mod 16 :: acc)) as (h & Hlen & Hh).
      { split; [apply Z.div_str_pos; lia | apply Z.div_lt_upper_bound; lia]. }
      exists (S h). split; [rewrite Hlen; cbn [length]; lia|].
      rewrite !Nat2Z.inj_succ, !Z.pow_succ_r in * by lia.
      pose proof (Z.div_mod z 16 ltac:(lia)).
      pose proof (Z.mod_pos_bound z 16 ltac:(lia)). lia.
Qed.

Lemma toString16_length z :
  0 < z ->
  exists h, len (Helpers.toString16 z) = Z.of_nat (S h) /\
            16 ^ Z.of_nat h <= z < 16 ^ Z.of_nat (S h).
Proof.
  intros Hz. unfold Helpers.toString16, len.
  destruct (toHexDigits_length (S (Z.to_nat (Z.log2 z))) z []) as (h & Hlen & Hh).
  - split; [assumption|].
    pose proof (Z.log2_nonneg z). pose proof (Z.log2_spec z Hz) as [_ Hup].
    rewrite Nat2Z.inj_succ, Z2Nat.id by assumption.
    apply Z.lt_le_trans with (1 := Hup).
    apply Z.pow_le_mono_l. lia.
  - exists h. rewrite Hlen. cbn [length]. split; [lia | assumption].
Qed.

(** The byte length computed by [storeCoins]: it is at least 1, the amount
    fits in that many bytes, and it stays below 16 exactly for the amounts
    below 2^120. *)
Lemma coinsByteLength_spec c :
  0 < nano c ->
  1 <= coinsByteLength c /\
  nano c < 2 ^ (coinsByteLength c * 8) /\
  (nano c < 2 ^ 120 <-> coinsByteLength c < 16).
Proof.
  intros Hpos. unfold coinsByteLength, toNano, Builder.ceilHalf.
  destruct (toString16_length (nano c) Hpos) as (h & -> & Hlo & Hhi).
  set (L := (Z.of_nat (S h) + 1) / 2).
  assert (HL : Z.of_nat (S h) <= 2 * L <= Z.of_nat (S h) + 1).
  { subst L. pose proof (Z.div_mod (Z.of_nat (S h) + 1) 2 ltac:(lia)).
    pose proof (Z.mod_pos_bound (Z.of_nat (S h) + 1) 2 ltac:(lia)). lia. }
  assert (Hpow : forall k, 0 <= k -> 2 ^ (4 * k) = 16 ^ k).
  { intros k Hk. rewrite Z.pow_mul_r by lia. reflexivity. }
  split; [lia|]. split.
  - replace (L * 8) with (4 * (2 * L)) by lia. rewrite Hpow by lia.
    apply Z.lt_le_trans with (1 := Hhi). apply Z.pow_le_mono_r; lia.
  - change 120 with (4 * 30). rewrite Hpow by lia. split.
    + intros Hlt.
      assert (Z.of_nat h < 30).
      { apply (Z.pow_lt_mono_r_iff 16); lia. }
      lia.
    + intros HL16. apply Z.lt_le_trans with (1 := Hhi).
      apply Z.pow_le_mono_r; lia.
Qed.

Lemma storeCoins_run c this :
  Builder.storeCoins c this =
  if nano c <? 0 then (Throw NegativeAmount, this)
  else if nano c =? 0 then Builder.storeBits (Builder.numberBits 0 4) this
  else if 4 + coinsByteLength c * 8 >? Builder.remainder this
       then (Throw BitOverflow, this)
  else if coinsByteLength c >=? 16 then (Throw RangeError, this)
  else (Ok tt, appendBits this (Builder.numberBits (coinsByteLength c) 4 ++
                                Builder.numberBits (nano c) (coinsByteLength c * 8))).
Proof.
  unfold Builder.storeCoins, isNegative, isZero. cbv zeta.
  fold (coinsByteLength c). unfold toNano.
  destruct (Z.ltb_spec (nano c) 0); [reflexivity|].
  destruct (Z.eqb_spec (nano c) 0); [now rewrite storeUint_run|].
  destruct (coinsByteLength_spec c ltac:(lia)) as (HL1 & Hfit & _).
  unfold bind at 1, Builder.checkBitsOverflow.
  split_if; [reflexivity|].
  unfold bind at 1. rewrite storeUint_run.
  destruct (Z.ltb_spec (coinsByteLength c) 0); [lia|].
  change (2 ^ 4) with 16. cbn [orb].
  destruct (Z.geb_spec (coinsByteLength c) 16); [reflexivity|].
  change (4 <? 0) with false. cbv iota.
  rewrite storeBits_run. split_if; [room|].
  rewrite storeUint_run.
  destruct (Z.ltb_spec (nano c) 0); [lia|].
  destruct (Z.geb_spec (nano c) (2 ^ (coinsByteLength c * 8))); [lia|].
  cbn [orb]. destruct (Z.ltb_spec (coinsByteLength c * 8) 0); [lia|].
  rewrite storeBits_run, remainder_appendBits. split_if; [room|].
  now rewrite appendBits_app.
Qed.

(** ** Capacity invariant and atomic rejection *)

Lemma atomic_throw this e : atomic_outcome this (Throw e, this).
Proof. left. now exists e. Qed.

Lemma atomic_bits this l :
  within_bounds this ->
  len l <= Builder.remainder this ->
  atomic_outcome this (Ok tt, appendBits this l).
Proof.
  intros [_ Hrefs] Hroom. right. exists l, []. rewrite appendRefs_nil.
  split; [reflexivity|]. split; [assumption|]. room.
Qed.

Lemma atomic_storeBits this l :
  within_bounds this -> atomic_outcome this (Builder.storeBits l this).
Proof.
  intros Hin. rewrite storeBits_run.
  split_if; [apply atomic_throw | now apply atomic_bits].
Qed.

Lemma atomic_storeUint this value length :
  within_bounds this -> atomic_outcome this (Builder.storeUint value length this).
Proof.
  intros Hin. rewrite storeUint_run.
  destruct ((value <? 0) || (value >=? 2 ^ length)); [apply atomic_throw|].
  destruct (length <? 0); [apply atomic_throw | now apply atomic_storeBits].
Qed.

Lemma atomic_storeInt this value length :
  within_bounds this -> atomic_outcome this (Builder.storeInt value length this).
Proof.
  intros Hin. rewrite storeInt_run.
  destruct ((value <? - 2 ^ (length - 1)) || (value >=? 2 ^ (length - 1)));
    [apply atomic_throw|].
  destruct (length <? 0); [apply atomic_throw | now apply atomic_storeBits].
Qed.

Lemma storeBit_run bit this :
  Builder.storeBit bit this =
  if negb (bit =? 0) && negb (bit =? 1) then (Throw InvalidBit, this)
  else if 1 >? Builder.remainder this then (Throw BitOverflow, this)
       else (Ok tt, appendBits this [bit =? 1]).
Proof.
  unfold Builder.storeBit.
  destruct (negb (bit =? 0) && negb (bit =? 1)); [reflexivity|].
  unfold bind, Builder.checkBitsOverflow, Builder.pushBit.
  destruct (1 >? Builder.remainder this); reflexivity.
Qed.

Lemma atomic_storeBit this bit :
  within_bounds this -> atomic_outcome this (Builder.storeBit bit this).
Proof.
  intros Hin. rewrite storeBit_run.
  destruct (negb (bit =? 0) && negb (bit =? 1)); [apply atomic_throw|].
  split_if; [apply atomic_throw | apply atomic_bits; [assumption | room]].
Qed.

Lemma atomic_storeRef this ref :
  within_bounds this -> atomic_outcome this (Builder.storeRef ref this).
Proof.
  intros [Hbits Hrefs]. rewrite storeRef_run.
  split_if; [apply atomic_throw|].
  right. exists [], [ref]. rewrite appendBits_nil.
  split; [reflexivity|]. unfold Builder.remainder. split; room.
Qed.

Lemma atomic_storeSlice this slice :
  within_bounds this -> atomic_outcome this (Builder.storeSlice slice this).
Proof.
  intros Hin. rewrite storeSlice_run.
  split_if; [apply atomic_throw|]. split_if; [apply atomic_throw|].
  right. exists (Slice.bits slice), (Slice.refs slice). auto.
Qed.

Lemma atomic_storeBytes this value :
  within_bounds this -> atomic_outcome this (Builder.storeBytes value this).
Proof.
  intros Hin. rewrite storeBytes_run.
  split_if; [apply atomic_throw|].
  apply atomic_bits; [assumption|]. rewrite len_bytesBits. lia.
Qed.

Lemma atomic_storeAddress this address :
  within_bounds this ->
  match address with Some a => Address_valid a = true | None => True end ->
  atomic_outcome this (Builder.storeAddress address this).
Proof.
  intros Hin Hvalid. destruct address as [a|].
  - rewrite storeAddress_run by assumption.
    split_if; [apply atomic_throw|].
    apply atomic_bits; [assumption|].
    apply Address_valid_spec in Hvalid as (_ & Hlen & _).
    rewrite len_addressBits by assumption. lia.
  - now apply atomic_storeBits.
Qed.

Lemma atomic_storeCoins this coins :
  within_bounds this -> atomic_outcome this (Builder.storeCoins coins this).
Proof.
  intros Hin. rewrite storeCoins_run.
  destruct (Z.ltb_spec (nano coins) 0); [apply atomic_throw|].
  destruct (Z.eqb_spec (nano coins) 0); [now apply atomic_storeBits|].
  destruct (coinsByteLength_spec coins ltac:(lia)) as (HL1 & _ & _).
  split_if; [apply atomic_throw|]. split_if; [apply atomic_throw|].
  apply atomic_bits; [assumption|].
  rewrite len_app, !length_numberBits. lia.
Qed.

Lemma runOp_atomic stringToBytes op this :
  within_bounds this -> well_typed op = true ->
  atomic_outcome this (runOp stringToBytes op this).
Proof.
  intros Hin Hty. destruct op; cbn [runOp].
  - now apply atomic_storeSlice.
  - now apply atomic_storeRef.
  - now apply atomic_storeBit.
  - now apply atomic_storeBits.
  - now apply atomic_storeInt.
  - now apply atomic_storeUint.
  - now apply atomic_storeBytes.
  - unfold Builder.storeString. now apply atomic_storeBytes.
  - apply atomic_storeAddress; [assumption|].
    destruct address; [exact Hty | exact I].
  - now apply atomic_storeCoins.
Qed.

Lemma atomic_outcome_bounds this res :
  within_bounds this -> atomic_outcome this res ->
  within_bounds (snd res) /\
  Builder._size (snd res) = Builder._size this /\
  (forall e, fst res = Throw e -> snd res = this).
Proof.
  intros [Hbits Hrefs] [(e & ->) | (l & r & -> & Hl & Hr)]; cbn [fst snd].
  - repeat split; auto.
  - unfold Builder.remainder in Hl. split; [|split].
    + split; cbn; rewrite len_app; lia.
    + reflexivity.
    + intros e He. discriminate He.
Qed.

Lemma runOps_bounds stringToBytes ops : forall this,
  within_bounds this -> forallb well_typed ops = true ->
  within_bounds (runOps stringToBytes ops this) /\
  Builder._size (runOps stringToBytes ops this) = Builder._size this.
Proof.
  induction ops as [|op ops IH]; intros this Hin Hty; [now split|].
  cbn [forallb] in Hty. apply andb_true_iff in Hty as [Hop Hops].
  cbn [runOps fold_left].
  destruct (atomic_outcome_bounds this (runOp stringToBytes op this) Hin
              (runOp_atomic stringToBytes op this Hin Hop)) as (Hin' & Hsize & _).
  destruct (IH _ Hin' Hops) as [Hfinal Hsz].
  split; [exact Hfinal|]. unfold runOps in Hsz. now rewrite Hsz.
Qed.

(** C3. Take a Builder created with a capacity [C >= 0] and run any
    sequence of store calls on it (every argument being a value of its type).
    The Builder then holds at most [C] bits and at most 4 refs, and the same
    is true after any further store call, whether it succeeds or is
    rejected; a rejected call leaves the bits and the refs of the Builder
    exactly as they were before the call. *)
Theorem builder_bounds_and_atomicity stringToBytes C ops :
  0 <= C ->
  forallb well_typed ops = true ->
  let this := runOps stringToBytes ops (Builder.new C) in
  (len (Builder._bits this) <= C /\ len (Builder._refs this) <= 4) /\
  forall op, well_typed op = true ->
    let after := snd (runOp stringToBytes op this) in
    (len (Builder._bits after) <= C /\ len (Builder._refs after) <= 4) /\
    (forall e, fst (runOp stringToBytes op this) = Throw e -> after = this).
Proof.
  intros HC Hty this.
  assert (Hnew : within_bounds (Builder.new C)) by (split; cbn; lia).
  destruct (runOps_bounds stringToBytes ops _ Hnew Hty) as [Hin Hsize].
  fold this in Hin, Hsize. cbn [Builder.new Builder._size] in Hsize.
  split; [destruct Hin; split; lia|].
  intros op Hop after.
  destruct (atomic_outcome_bounds this _ Hin
              (runOp_atomic stringToBytes op this Hin Hop)) as ([Hb Hr] & Hsz & Hrej).
  fold after in Hb, Hr, Hsz, Hrej. split; [split; lia | exact Hrej].
Qed.

Lemma builder_bounds_and_atomicity_witness :
  let ref := mkCell [] [] in
  let this := runOps (fun _ => [])
                [OpStoreBits [true; false; true; true];
                 OpStoreRef ref; OpStoreRef ref; OpStoreRef ref; OpStoreRef ref]
                (Builder.new 4) in
  (fst (Builder.storeBit 1 this) = Throw BitOverflow /\
   snd (Builder.storeBit 1 this) = this /\ len (Builder._bits this) = 4) /\
  (fst (Builder.storeRef ref this) = Throw RefOverflow /\
   snd (Builder.storeRef ref this) = this /\ len (Builder._refs this) = 4).
Proof.
  intros ref this.
  pose proof (builder_bounds_and_atomicity (fun _ => []) 4
                [OpStoreBits [true; false; true; true];
                 OpStoreRef ref; OpStoreRef ref; OpStoreRef ref; OpStoreRef ref]
                ltac:(lia) eq_refl) as [_ Hop].
  cbv zeta in Hop. fold this in Hop.
  split.
  - split; [reflexivity|]. split; [|reflexivity].
    exact (proj2 (Hop (OpStoreBit 1) eq_refl) BitOverflow eq_refl).
  - split; [reflexivity|]. split; [|reflexivity].
    exact (proj2 (Hop (OpStoreRef ref) eq_refl) RefOverflow eq_refl).
Defined.

(** ** Slice: peeking and consuming *)

Lemma length_skipn_le {A} n (l : list A) : len (skipn n l) <= len l.
Proof. unfold len. rewrite length_skipn. lia. Qed.

Lemma no_longer_than_refl slice : no_longer_than slice slice.
Proof. split; lia. Qed.

Lemma skip_no_longer size slice :
  no_longer_than (snd (Slice.skip size slice)) slice.
Proof.
  unfold Slice.skip. split_if; [apply no_longer_than_refl|].
  split; cbn; [apply length_skipn_le | lia].
Qed.

Lemma loadBits_no_longer size slice :
  no_longer_than (snd (Slice.loadBits size slice)) slice.
Proof.
  unfold Slice.loadBits.
  destruct ((size <=? 0) || (len (Slice._bits slice) <? size));
    [apply no_longer_than_refl|].
  split; cbn; [apply length_skipn_le | lia].
Qed.

Lemma preloadBits_loadBits size slice :
  Slice.preloadBits size slice = (fst (Slice.loadBits size slice), slice).
Proof.
  unfold Slice.preloadBits, Slice.loadBits.
  destruct ((size <=? 0) || (len (Slice._bits slice) <? size)); reflexivity.
Qed.

(** A reader that decodes the bits it takes: [load] and [preload] differ by
    the state only. *)
Lemma decode_frame {A} (decode : list Bit -> A) size slice :
  (bits <- Slice.preloadBits size ;; ret (decode bits)) slice =
  (fst ((bits <- Slice.loadBits size ;; ret (decode bits)) slice), slice) /\
  no_longer_than (snd ((bits <- Slice.loadBits size ;; ret (decode bits)) slice)) slice.
Proof.
  unfold bind, ret. rewrite preloadBits_loadBits.
  pose proof (loadBits_no_longer size slice) as Hle.
  destruct (Slice.loadBits size slice) as [[bits|e] slice']; cbn in *; auto.
Qed.

Lemma skip_after_peek size slice bits :
  fst (Slice.loadBits size slice) = Ok bits ->
  Slice.skip size slice = (Ok tt, snd (Slice.loadBits size slice)).
Proof.
  unfold Slice.loadBits, Slice.skip.
  destruct (Z.leb_spec size 0); [discriminate|].
  destruct (Z.ltb_spec (len (Slice._bits slice)) size); [discriminate|].
  reflexivity.
Qed.

Lemma bind_preloadBits {A} size (k : list Bit -> M Slice.Slice A) slice :
  (bits <- Slice.preloadBits size ;; k bits) slice =
  match fst (Slice.loadBits size slice) with
  | Ok bits => k bits slice
  | Throw e => (Throw e, slice)
  end.
Proof. unfold bind at 1. now rewrite preloadBits_loadBits. Qed.

Lemma bind_preloadUint {A} size (k : Z -> M Slice.Slice A) slice :
  (uint <- Slice.preloadUint size ;; k uint) slice =
  match fst (Slice.loadBits size slice) with
  | Ok bits => k (Slice.bitsToUint bits) slice
  | Throw e => (Throw e, slice)
  end.
Proof.
  unfold Slice.preloadUint, bind, ret. rewrite preloadBits_loadBits.
  now destruct (fst (Slice.loadBits size slice)).
Qed.

Lemma skip_ret_after_peek {A} size slice bits (a : A) :
  fst (Slice.loadBits size slice) = Ok bits ->
  (Slice.skip size ;; ret a) slice = (Ok a, snd (Slice.loadBits size slice)).
Proof.
  intros Hpeek. unfold bind, ret. now rewrite (skip_after_peek _ _ _ Hpeek).
Qed.

Lemma loadAddress_frame slice :
  Slice.preloadAddress slice = (fst (Slice.loadAddress slice), slice) /\
  no_longer_than (snd (Slice.loadAddress slice)) slice.
Proof.
  unfold Slice.preloadAddress, Slice.loadAddress. cbv zeta.
  rewrite !bind_preloadBits.
  destruct (fst (Slice.loadBits 2 slice)) as [flag|e] eqn:Hflag;
    [|split; [reflexivity | apply no_longer_than_refl]].
  destruct (Slice.every flag Slice.FLAG_ADDRESS_NO).
  - rewrite (skip_ret_after_peek _ _ _ _ Hflag).
    split; [reflexivity | apply loadBits_no_longer].
  - destruct (Slice.every flag Slice.FLAG_ADDRESS);
      [|split; [reflexivity | apply no_longer_than_refl]].
    rewrite !bind_preloadBits.
    destruct (fst (Slice.loadBits (2 + 1 + 8 + 256) slice)) as [bits|e] eqn:Hbits;
      [|split; [reflexivity | apply no_longer_than_refl]].
    rewrite (skip_ret_after_peek _ _ _ _ Hbits).
    split; [reflexivity | apply loadBits_no_longer].
Qed.

Lemma loadCoins_frame slice :
  Slice.preloadCoins slice = (fst (Slice.loadCoins slice), slice) /\
  no_longer_than (snd (Slice.loadCoins slice)) slice.
Proof.
  unfold Slice.preloadCoins, Slice.loadCoins. cbv zeta.
  rewrite !bind_preloadUint.
  destruct (fst (Slice.loadBits 4 slice)) as [prefix|e] eqn:Hprefix;
    [|split; [reflexivity | apply no_longer_than_refl]].
  destruct (Slice.bitsToUint prefix =? 0).
  - rewrite (skip_ret_after_peek _ _ _ _ Hprefix).
    split; [reflexivity | apply loadBits_no_longer].
  - rewrite !bind_preloadBits.
    match goal with
    | |- context [Slice.loadBits ?n slice] =>
        destruct (fst (Slice.loadBits n slice)) as [bits|e] eqn:Hbits;
          [|split; [reflexivity | apply no_longer_than_refl]]
    end.
    rewrite (skip_ret_after_peek _ _ _ _ Hbits).
    split; [reflexivity | apply loadBits_no_longer].
Qed.

(** C9. Every [preload*] method returns what its [load*] counterpart
    returns on the same Slice (a value or the same error) and leaves the bits
    and the refs of the Slice as they were; [load*] and [skip] never leave
    the Slice with more bits or more refs than it had. *)
Theorem preload_frame Uint8Array bitsToBytes bytesToString
    (A : Type) (r : Reader Uint8Array A) (slice : Slice.Slice) (size : Z) :
  preload Uint8Array bitsToBytes bytesToString r slice
  = (fst (load Uint8Array bitsToBytes bytesToString r slice), slice) /\
  no_longer_than (snd (load Uint8Array bitsToBytes bytesToString r slice)) slice /\
  no_longer_than (snd (Slice.skip size slice)) slice.
Proof.
  split; [|split; [|apply skip_no_longer]].
  - destruct r; cbn [load preload].
    + unfold Slice.preloadRef, Slice.loadRef. now destruct (Slice._refs slice).
    + unfold Slice.preloadBit, Slice.loadBit. now destruct (Slice._bits slice).
    + apply preloadBits_loadBits.
    + unfold Slice.preloadInt, Slice.loadInt, Slice.preloadUint, Slice.loadUint,
        bind, ret.
      rewrite preloadBits_loadBits.
      now destruct (Slice.loadBits size0 slice) as [[bits|e] slice'].
    + apply (decode_frame Slice.bitsToUint).
    + apply (decode_frame bitsToBytes).
    + unfold Slice.preloadString, Slice.loadString, Slice.preloadBytes,
        Slice.loadBytes, bind, ret.
      destruct size0 as [size0|]; rewrite preloadBits_loadBits;
        match goal with
        | |- context [Slice.loadBits ?n ?s] =>
            now destruct (Slice.loadBits n s) as [[bits|e] slice']
        end.
    + apply loadAddress_frame.
    + apply loadCoins_frame.
  - destruct r; cbn [load].
    + unfold Slice.loadRef. destruct (Slice._refs slice) eqn:Hrefs;
        [apply no_longer_than_refl|].
      split; cbn; [lia | rewrite Hrefs, len_cons; lia].
    + unfold Slice.loadBit. destruct (Slice._bits slice) eqn:Hbits;
        [apply no_longer_than_refl|].
      split; cbn; [rewrite Hbits, len_cons; lia | lia].
    + apply loadBits_no_longer.
    + unfold Slice.loadInt, Slice.loadUint, bind, ret.
      pose proof (loadBits_no_longer size0 slice).
      now destruct (Slice.loadBits size0 slice) as [[bits|e] slice'].
    + apply (decode_frame Slice.bitsToUint).
    + apply (decode_frame bitsToBytes).
    + unfold Slice.loadString, Slice.loadBytes, bind, ret.
      destruct size0 as [size0|];
        match goal with
        | |- context [Slice.loadBits ?n ?s] =>
            pose proof (loadBits_no_longer n s);
            now destruct (Slice.loadBits n s) as [[bits|e] slice']
        end.
    + apply loadAddress_frame.
    + apply loadCoins_frame.
Qed.

(** ** Integers: what is written is what is read *)

Lemma fround_small z : Z.abs z < 2 ^ 53 -> JsNumber.fround z = z.
Proof.
  intros Hz. unfold JsNumber.fround.
  destruct (Z.leb_spec (Z.log2 (Z.abs z) - 52) 0) as [_|Hbig]; [reflexivity|].
  exfalso. destruct (Z.eq_dec (Z.abs z) 0) as [Hz0|Hnz].
  - rewrite Hz0 in Hbig. cbn in Hbig. lia.
  - assert (Hlog : 53 <= Z.log2 (Z.abs z)) by lia.
    apply Z.log2_le_pow2 in Hlog; lia.
Qed.

Lemma leValue_bound l : 0 <= leValue l < 2 ^ len l.
Proof.
  induction l as [|b l IH]; [cbn; lia|].
  rewrite len_cons, Z.pow_add_r by (pose proof (len_nonneg l); lia).
  cbn [leValue]. destruct b; cbn [Z.b2z]; lia.
Qed.

Lemma reduceUint_exact l : forall i acc,
  0 <= i -> 0 <= acc < 2 ^ i -> i + len l <= 53 ->
  Slice.reduceUint l i acc = acc + 2 ^ i * leValue l.
Proof.
  induction l as [|b l IH]; intros i acc Hi Hacc Hlen.
  - cbn. lia.
  - rewrite len_cons in Hlen. pose proof (len_nonneg l) as Hl.
    assert (Hpow : 2 ^ (i + 1) <= 2 ^ 53) by (apply Z.pow_le_mono_r; lia).
    assert (Hstep : 2 ^ (i + 1) = 2 * 2 ^ i) by (rewrite Z.pow_add_r; lia).
    cbn [Slice.reduceUint leValue].
    unfold JsNumber.add, JsNumber.mul, JsNumber.pow2.
    assert (Hb : 0 <= Z.b2z b * 2 ^ i <= 2 ^ i) by (destruct b; cbn [Z.b2z]; lia).
    rewrite (fround_small (Z.b2z b * 2 ^ i)) by lia.
    rewrite fround_small by lia.
    rewrite IH by lia. rewrite Hstep. ring.
Qed.

Lemma bitsToZ_snoc l b :
  Helpers.bitsToZ (l ++ [b]) = 2 * Helpers.bitsToZ l + Z.b2z b.
Proof. unfold Helpers.bitsToZ. now rewrite fold_left_app. Qed.

Lemma leValue_rev l : leValue (rev l) = Helpers.bitsToZ l.
Proof.
  rewrite <- (rev_involutive l) at 2.
  induction (rev l) as [|b r IH]; [reflexivity|].
  cbn [rev leValue]. rewrite bitsToZ_snoc, IH. lia.
Qed.

Lemma bitsToUint_exact l :
  len l <= 53 -> Slice.bitsToUint l = Helpers.bitsToZ l.
Proof.
  intros Hlen. unfold Slice.bitsToUint.
  rewrite reduceUint_exact;
    [rewrite leValue_rev, Z.pow_0_r; lia | lia | rewrite Z.pow_0_r; lia |].
  unfold len in *. rewrite length_rev. lia.
Qed.

Lemma leValue_testbits value n : forall k,
  leValue (map (fun i => Z.testbit value (Z.of_nat i)) (seq k n))
  = (value / 2 ^ Z.of_nat k) mod 2 ^ Z.of_nat n.
Proof.
  induction n as [|n IH]; intros k.
  - cbn. now rewrite Z.mod_1_r.
  - cbn [seq map leValue]. rewrite IH.
    rewrite Z.testbit_spec' by lia.
    rewrite !Nat2Z.inj_succ, !Z.pow_succ_r by lia.
    rewrite (Z.rem_mul_r _ 2 (2 ^ Z.of_nat n)) by lia.
    rewrite Z.div_div by lia.
    now rewrite (Z.mul_comm (2 ^ Z.of_nat k) 2).
Qed.

(** The bits written by [storeNumber] are those of [value] in [length]
    bits (two's complement for a negative value). *)
Lemma bitsToZ_numberBits value length :
  0 <= length ->
  Helpers.bitsToZ (Builder.numberBits value length) = value mod 2 ^ length.
Proof.
  intros Hlen. rewrite <- leValue_rev. unfold Builder.numberBits.
  rewrite rev_involutive, leValue_testbits. cbn [Z.of_nat].
  now rewrite Z.pow_0_r, Z.div_1_r, Z2Nat.id by assumption.
Qed.

Lemma skip_prefix prefix rest refs :
  Slice.skip (len prefix) (Slice.mkSlice (prefix ++ rest) refs)
  = (Ok tt, Slice.mkSlice rest refs).
Proof.
  unfold Slice.skip. cbn [Slice._bits Slice._refs]. rewrite len_app.
  pose proof (len_nonneg rest).
  destruct (Z.ltb_spec (len prefix + len rest) (len prefix)); [lia|].
  unfold len. rewrite Nat2Z.id, skipn_app, skipn_all, Nat.sub_diag. reflexivity.
Qed.

Lemma loadBits_prefix size bits rest refs :
  len bits = size -> 0 < size ->
  Slice.loadBits size (Slice.mkSlice (bits ++ rest) refs)
  = (Ok bits, Slice.mkSlice rest refs).
Proof.
  intros Hlen Hpos. unfold Slice.loadBits. cbn [Slice._bits Slice._refs].
  rewrite len_app. pose proof (len_nonneg rest).
  destruct (Z.leb_spec size 0); [lia|].
  destruct (Z.ltb_spec (len bits + len rest) size); [lia|]. cbn [orb].
  subst size. unfold len.
  rewrite Nat2Z.id, skipn_app, skipn_all, Nat.sub_diag.
  rewrite firstn_app, firstn_all, Nat.sub_diag. cbn. now rewrite app_nil_r.
Qed.

Lemma preloadBits_prefix size bits rest refs :
  len bits = size -> 0 < size ->
  Slice.preloadBits size (Slice.mkSlice (bits ++ rest) refs)
  = (Ok bits, Slice.mkSlice (bits ++ rest) refs).
Proof.
  intros Hlen Hpos. rewrite preloadBits_loadBits.
  now rewrite loadBits_prefix.
Qed.

Lemma shl_1_small k : 0 <= k <= 30 -> JsNumber.shl 1 k = 2 ^ k.
Proof.
  intros Hk. unfold JsNumber.shl.
  change (JsNumber.toInt32 1) with 1.
  rewrite Z.mod_small, Z.shiftl_1_l by lia.
  assert (0 < 2 ^ k <= 2 ^ 30)
    by (split; [apply Z.pow_pos_nonneg; lia | apply Z.pow_le_mono_r; lia]).
  unfold JsNumber.toInt32. rewrite Z.mod_small by lia.
  destruct (Z.ltb_spec (2 ^ k) (2 ^ 31)); [reflexivity | lia].
Qed.

Lemma uintToInt_twos_complement value n :
  1 <= n <= 31 -> - 2 ^ (n - 1) <= value < 2 ^ (n - 1) ->
  Slice.uintToInt (value mod 2 ^ n) n = value.
Proof.
  intros Hn Hv. unfold Slice.uintToInt. cbv zeta.
  rewrite shl_1_small by lia.
  assert (Hhalf : 0 < 2 ^ (n - 1) <= 2 ^ 30)
    by (split; [apply Z.pow_pos_nonneg; lia | apply Z.pow_le_mono_r; lia]).
  assert (Hpow : 2 ^ n = 2 * 2 ^ (n - 1)).
  { rewrite <- Z.pow_succ_r by lia. f_equal. lia. }
  destruct (Z.le_gt_cases 0 value) as [Hpos|Hneg].
  - rewrite Z.mod_small by lia.
    destruct (Z.geb_spec value (2 ^ (n - 1))); [lia | reflexivity].
  - replace (value mod 2 ^ n) with (value + 2 ^ n).
    2:{ apply Z.mod_unique with (q := -1); lia. }
    destruct (Z.geb_spec (value + 2 ^ n) (2 ^ (n - 1))); [|lia].
    unfold JsNumber.sub, JsNumber.mul.
    rewrite (fround_small (2 ^ (n - 1) * 2)) by lia.
    rewrite fround_small by lia. lia.
Qed.

Lemma storeUint_ok this value n :
  0 <= n -> 0 <= value < 2 ^ n -> n <= Builder.remainder this ->
  Builder.storeUint value n this
  = (Ok tt, appendBits this (Builder.numberBits value n)).
Proof.
  intros Hn Hv Hroom. rewrite storeUint_run.
  destruct (Z.ltb_spec value 0); [lia|].
  destruct (Z.geb_spec value (2 ^ n)); [lia|]. cbn [orb].
  destruct (Z.ltb_spec n 0); [lia|].
  rewrite storeBits_run, length_numberBits. split_if; [lia | reflexivity].
Qed.

Lemma storeInt_ok this value n :
  1 <= n -> - 2 ^ (n - 1) <= value < 2 ^ (n - 1) -> n <= Builder.remainder this ->
  Builder.storeInt value n this
  = (Ok tt, appendBits this (Builder.numberBits value n)).
Proof.
  intros Hn Hv Hroom. rewrite storeInt_run.
  destruct (Z.ltb_spec value (- 2 ^ (n - 1))); [lia|].
  destruct (Z.geb_spec value (2 ^ (n - 1))); [lia|]. cbn [orb].
  destruct (Z.ltb_spec n 0); [lia|].
  rewrite storeBits_run, length_numberBits. split_if; [lia | reflexivity].
Qed.

(** Reading a cell from the point where the Builder stood before a store:
    the Slice over the cell, once the earlier bits are skipped, holds the
    bits that were stored. *)
Lemma read_after_store {A} (reader : M Slice.Slice A) this bits :
  (Slice.skip (len (Builder._bits this)) ;; reader)
    (parse (Builder.cell (appendBits this bits)))
  = reader (Slice.mkSlice bits (Builder._refs this)).
Proof.
  unfold parse, Builder.cell, Builder.bits, Builder.refs, appendBits.
  cbn [cell_bits cell_refs Builder._bits Builder._refs].
  unfold bind. now rewrite skip_prefix.
Qed.

Lemma loadBits_all size bits refs :
  len bits = size -> 0 < size ->
  Slice.loadBits size (Slice.mkSlice bits refs) = (Ok bits, Slice.mkSlice [] refs).
Proof.
  intros Hlen Hpos. rewrite <- (app_nil_r bits) at 1.
  now apply loadBits_prefix.
Qed.

Lemma loadUint_numberBits value n refs :
  1 <= n <= 53 ->
  Slice.loadUint n (Slice.mkSlice (Builder.numberBits value n) refs)
  = (Ok (value mod 2 ^ n), Slice.mkSlice [] refs).
Proof.
  intros Hn. unfold Slice.loadUint, bind, ret.
  rewrite loadBits_all by (rewrite ?length_numberBits; lia).
  rewrite bitsToUint_exact by (rewrite length_numberBits; lia).
  now rewrite bitsToZ_numberBits by lia.
Qed.

(** C5, as amended. On a Builder with room for [n] more bits:
    for a width [1 <= n <= 53] and [0 <= value < 2^n], [storeUint(value, n)]
    succeeds and [loadUint(n)], applied to a Slice over the resulting cell at
    the position of the stored field, returns [value]; for a width
    [1 <= n <= 31] and [-2^(n-1) <= value < 2^(n-1)], boundary values
    included, the same holds of [storeInt(value, n)] and [loadInt(n)]. *)
Theorem integer_roundtrip this value n :
  n <= Builder.remainder this ->
  (1 <= n <= 53 -> 0 <= value < 2 ^ n ->
     fst (Builder.storeUint value n this) = Ok tt /\
     fst ((Slice.skip (len (Builder._bits this)) ;; Slice.loadUint n)
            (parse (Builder.cell (snd (Builder.storeUint value n this)))))
     = Ok value) /\
  (1 <= n <= 31 -> - 2 ^ (n - 1) <= value < 2 ^ (n - 1) ->
     fst (Builder.storeInt value n this) = Ok tt /\
     fst ((Slice.skip (len (Builder._bits this)) ;; Slice.loadInt n)
            (parse (Builder.cell (snd (Builder.storeInt value n this)))))
     = Ok value).
Proof.
  intros Hroom. split; intros Hn Hv.
  - rewrite storeUint_ok by lia. cbn [fst snd]. split; [reflexivity|].
    rewrite read_after_store, loadUint_numberBits by lia.
    cbn [fst]. now rewrite Z.mod_small by lia.
  - rewrite storeInt_ok by lia. cbn [fst snd]. split; [reflexivity|].
    rewrite read_after_store. unfold Slice.loadInt, bind at 1.
    rewrite loadUint_numberBits by lia. unfold ret. cbn [fst].
    now rewrite uintToInt_twos_complement.
Qed.

Lemma integer_roundtrip_witness :
  readBack (Builder.storeUint 255 8) (Slice.skip 0 ;; Slice.loadUint 8) = Ok 255 /\
  readBack (Builder.storeInt (-128) 8) (Slice.skip 0 ;; Slice.loadInt 8) = Ok (-128) /\
  readBack (Builder.storeInt 127 8) (Slice.skip 0 ;; Slice.loadInt 8) = Ok 127.
Proof.
  unfold readBack, Builder.DEFAULT_SIZE.
  split; [|split].
  - apply (proj1 (integer_roundtrip (Builder.new 1023) 255 8 ltac:(cbn; lia)));
      cbn; lia.
  - apply (proj2 (integer_roundtrip (Builder.new 1023) (-128) 8 ltac:(cbn; lia)));
      cbn; lia.
  - apply (proj2 (integer_roundtrip (Builder.new 1023) 127 8 ltac:(cbn; lia)));
      cbn; lia.
Defined.

(** C5 as stated fails in three places. A value of 54 bits does not survive
    [loadUint], which computes in double precision: 2^53 + 1 is read back as
    2^53. [loadInt(32)] computes [1 << 31], a negative 32-bit integer, and
    reads 5 back as 5 + 2^32. And a field of width 0 can be stored but not
    loaded. *)
Lemma integer_roundtrip_limits :
  (fst (Builder.storeUint (2 ^ 53 + 1) 54 (Builder.new 1023)) = Ok tt /\
   readBack (Builder.storeUint (2 ^ 53 + 1) 54) (Slice.loadUint 54) = Ok (2 ^ 53) /\
   readBack (Builder.storeUint (2 ^ 53 + 1) 54) (Slice.loadUint 54)
   <> Ok (2 ^ 53 + 1)) /\
  (fst (Builder.storeInt 5 32 (Builder.new 1023)) = Ok tt /\
   readBack (Builder.storeInt 5 32) (Slice.loadInt 32) = Ok (5 + 2 ^ 32) /\
   readBack (Builder.storeInt 5 32) (Slice.loadInt 32) <> Ok 5) /\
  (fst (Builder.storeUint 0 0 (Builder.new 1023)) = Ok tt /\
   readBack (Builder.storeUint 0 0) (Slice.loadUint 0) = Throw BitOverflow).
Proof. vm_compute. repeat split; discriminate. Qed.

(** ** Addresses: what is written is what is read *)

Lemma splice_middle {A} (prefix removed rest : list A) start count :
  length prefix = start -> length removed = count ->
  Slice.splice start count (prefix ++ removed ++ rest) = (removed, prefix ++ rest).
Proof.
  intros <- <-. unfold Slice.splice.
  rewrite skipn_app, skipn_all, Nat.sub_diag. cbn [skipn app].
  rewrite firstn_app, firstn_all, Nat.sub_diag. cbn [firstn].
  rewrite app_nil_r.
  rewrite firstn_app, firstn_all, Nat.sub_diag. cbn [firstn].
  rewrite app_nil_r. f_equal. f_equal.
  rewrite app_assoc, skipn_app, length_app, skipn_all2 by (rewrite length_app; lia).
  rewrite Nat.sub_diag. reflexivity.
Qed.

Lemma addressRaw_layout flag anycast workchainBits hashBits :
  length flag = 2%nat -> length anycast = 1%nat ->
  length workchainBits = 8%nat -> length hashBits = 256%nat ->
  Slice.addressRaw (flag ++ anycast ++ workchainBits ++ hashBits)
  = (Helpers.bitsToInt8 workchainBits, Helpers.bitsToHex hashBits).
Proof.
  intros Hflag Hany Hwc Hhash. unfold Slice.addressRaw.
  rewrite (splice_middle flag anycast) by assumption.
  rewrite (splice_middle flag workchainBits) by assumption.
  rewrite <- (app_nil_r hashBits) at 1.
  rewrite (splice_middle flag hashBits) by assumption.
  reflexivity.
Qed.

Lemma bitsToInt8_numberBits value :
  -128 <= value < 128 ->
  Helpers.bitsToInt8 (Builder.numberBits value 8) = value.
Proof.
  intros Hv. unfold Helpers.bitsToInt8. cbv zeta.
  rewrite bitsToZ_numberBits by lia. change (2 ^ 8) with 256.
  destruct (Z.le_gt_cases 0 value).
  - rewrite Z.mod_small by lia. split_if; lia.
  - replace (value mod 256) with (value + 256)
      by (apply Z.mod_unique with (q := -1); lia).
    split_if; lia.
Qed.

Lemma hexToBytes_byte value rest :
  Helpers.hexToBytes (Helpers.bitsToHex (Builder.numberBits value 8 ++ rest))
  = value mod 2 ^ 8 :: Helpers.hexToBytes (Helpers.bitsToHex rest).
Proof.
  pose proof (bitsToZ_numberBits value 8 ltac:(lia)) as Hvalue.
  revert Hvalue. unfold Builder.numberBits.
  change (Z.to_nat 8) with 8%nat. cbn [seq map rev app].
  intros Hvalue. cbn [Helpers.bitsToHex Helpers.hexToBytes].
  f_equal. rewrite <- Hvalue. unfold Helpers.bitsToZ. cbn [fold_left]. ring.
Qed.

Lemma hexToBytes_bytesBits bytes :
  Forall (fun x => 0 <= x < 256) bytes ->
  Helpers.hexToBytes (Helpers.bitsToHex (bytesBits bytes)) = bytes.
Proof.
  induction 1 as [|x bytes Hx _ IH]; [reflexivity|].
  unfold bytesBits in *. cbn [flat_map].
  rewrite hexToBytes_byte, IH. f_equal.
  change (2 ^ 8) with 256. now rewrite Z.mod_mod, Z.mod_small by lia.
Qed.

Lemma loadAddress_addressBits a refs :
  Address_valid a = true ->
  Slice.loadAddress (Slice.mkSlice (addressBits a) refs)
  = (Ok (Some a), Slice.mkSlice [] refs).
Proof.
  intros Hvalid. apply Address_valid_spec in Hvalid as (Hwc & Hlen & Hbytes).
  unfold Slice.loadAddress. rewrite bind_preloadBits.
  unfold addressBits at 1. rewrite loadBits_prefix by (reflexivity || lia).
  cbn [fst]. change (Slice.every [true; false] Slice.FLAG_ADDRESS_NO) with false.
  change (Slice.every [true; false] Slice.FLAG_ADDRESS) with true.
  cbv iota zeta. rewrite bind_preloadBits.
  rewrite loadBits_all by (rewrite ?len_addressBits; (assumption || reflexivity)).
  cbn [fst]. unfold bind, ret.
  rewrite <- (app_nil_r (addressBits a)) at 1.
  rewrite <- (len_addressBits a Hlen) at 1. rewrite skip_prefix.
  unfold addressBits. rewrite addressRaw_layout; try reflexivity.
  - unfold newAddress. cbn [fst snd].
    rewrite bitsToInt8_numberBits, hexToBytes_bytesBits by assumption.
    now destruct a.
  - pose proof (len_bytesBits (hash a)) as H256. unfold len in *. lia.
Qed.

Lemma loadAddress_none refs :
  Slice.loadAddress (Slice.mkSlice [false; false] refs)
  = (Ok None, Slice.mkSlice [] refs).
Proof. reflexivity. Qed.

(** C6. On a Builder with room for the field (2 bits for a null address,
    267 bits otherwise), [storeAddress] succeeds and [loadAddress], applied
    to a Slice over the resulting cell at the position of the stored field,
    returns the "no address" marker for null and otherwise an address with
    the same workchain and the same hash, for every address with an 8-bit
    signed workchain and a hash of 32 bytes. *)
Theorem address_roundtrip this (address : option Address) :
  match address with
  | Some a => Address_valid a = true /\ 267 <= Builder.remainder this
  | None => 2 <= Builder.remainder this
  end ->
  fst (Builder.storeAddress address this) = Ok tt /\
  fst ((Slice.skip (len (Builder._bits this)) ;; Slice.loadAddress)
         (parse (Builder.cell (snd (Builder.storeAddress address this)))))
  = Ok address.
Proof.
  destruct address as [a|].
  - intros [Hvalid Hroom]. rewrite storeAddress_run by assumption.
    split_if; [lia|]. cbn [fst snd]. split; [reflexivity|].
    rewrite read_after_store. now rewrite loadAddress_addressBits.
  - intros Hroom. cbn [Builder.storeAddress]. rewrite storeBits_run.
    split_if; [room|]. cbn [fst snd]. split; [reflexivity|].
    rewrite read_after_store. now rewrite loadAddress_none.
Qed.

Lemma address_roundtrip_witness :
  let a := {| workchain := -1; hash := repeat 255 32 |} in
  readBack (Builder.storeAddress (Some a)) (Slice.skip 0 ;; Slice.loadAddress)
  = Ok (Some a) /\
  readBack (Builder.storeAddress None) (Slice.skip 0 ;; Slice.loadAddress)
  = Ok None.
Proof.
  intros a. unfold readBack, Builder.DEFAULT_SIZE. split.
  - apply (address_roundtrip (Builder.new 1023) (Some a)).
    split; [reflexivity | cbn; lia].
  - apply (address_roundtrip (Builder.new 1023) None). cbn; lia.
Defined.

(** ** Coins: what is written is what is read *)

Lemma hexToZ_bitsToHex_acc k : forall l acc,
  length l = (4 * k)%nat ->
  fold_left (fun acc digit => 16 * acc + digit) (Helpers.bitsToHex l) acc
  = fold_left (fun acc (bit : Bit) => 2 * acc + Z.b2z bit) l acc.
Proof.
  induction k as [|k IH]; intros l acc Hlen.
  - destruct l; [reflexivity | discriminate].
  - destruct l as [|b3 [|b2 [|b1 [|b0 l]]]]; try (cbn in Hlen; lia).
    cbn [Helpers.bitsToHex fold_left].
    rewrite IH by (cbn in Hlen; lia).
    f_equal. unfold Helpers.bitsToZ. cbn [fold_left]. ring.
Qed.

Lemma hexToZ_bitsToHex l k :
  length l = (4 * k)%nat ->
  Helpers.hexToZ (Helpers.bitsToHex l) = Helpers.bitsToZ l.
Proof. intros Hlen. now apply hexToZ_bitsToHex_acc with (k := k). Qed.

Lemma length_numberBits_nat value length :
  0 <= length -> List.length (Builder.numberBits value length) = Z.to_nat length.
Proof.
  intros Hlen. pose proof (length_numberBits value length) as H.
  unfold len in H. lia.
Qed.

Lemma loadCoins_stored c refs :
  0 < nano c < 2 ^ 120 ->
  Slice.loadCoins
    (Slice.mkSlice (Builder.numberBits (coinsByteLength c) 4 ++
                    Builder.numberBits (nano c) (coinsByteLength c * 8)) refs)
  = (Ok c, Slice.mkSlice [] refs).
Proof.
  intros Hnano.
  destruct (coinsByteLength_spec c ltac:(lia)) as (HL1 & Hfit & HL16).
  apply proj1 in HL16. specialize (HL16 ltac:(lia)).
  set (L := coinsByteLength c) in *.
  unfold Slice.loadCoins. rewrite bind_preloadUint.
  rewrite loadBits_prefix by (rewrite ?length_numberBits; lia).
  cbn [fst]. rewrite bitsToUint_exact by (rewrite length_numberBits; lia).
  rewrite bitsToZ_numberBits by lia. change (2 ^ 4) with 16.
  rewrite Z.mod_small by lia.
  destruct (Z.eqb_spec L 0); [lia|]. cbv zeta.
  unfold JsNumber.add, JsNumber.mul.
  rewrite (fround_small (L * 8)) by lia. rewrite fround_small by lia.
  assert (Hsize : len (Builder.numberBits L 4 ++ Builder.numberBits (nano c) (L * 8))
                  = 4 + L * 8)
    by (rewrite len_app, !length_numberBits; lia).
  rewrite bind_preloadBits, loadBits_all by (assumption || lia).
  cbn [fst]. unfold bind, ret.
  rewrite <- (app_nil_r (_ ++ _)) at 1. rewrite <- Hsize at 1. rewrite skip_prefix.
  f_equal. f_equal. unfold Slice.spliceFrom. cbn [fst].
  rewrite skipn_app, skipn_all2, length_numberBits_nat
    by (rewrite ?length_numberBits_nat; lia).
  change (4 - Z.to_nat 4)%nat with 0%nat. cbn [skipn app].
  unfold newCoinsHex.
  rewrite (hexToZ_bitsToHex _ (Z.to_nat (2 * L)))
    by (rewrite length_numberBits_nat; lia).
  rewrite bitsToZ_numberBits, Z.mod_small by lia.
  now destruct c.
Qed.

Lemma loadCoins_zero refs :
  Slice.loadCoins (Slice.mkSlice (Builder.numberBits 0 4) refs)
  = (Ok newCoins0, Slice.mkSlice [] refs).
Proof. reflexivity. Qed.

(** C7, as amended. [storeCoins] rejects a negative amount with the
    negative-amount error and leaves the Builder as it was. For an amount
    [0 <= v < 2^120] (a magnitude of at most 15 bytes; 0, 1, 255 and 256 are
    among them) and a Builder with room for the field, [storeCoins] succeeds,
    zero is written as the four bits 0000 alone, and [loadCoins], applied to
    a Slice over the resulting cell at the position of the stored field,
    returns the same amount. An amount of 2^120 or more (16 bytes and up) is
    rejected, the Builder staying as it was. *)
Theorem coins_roundtrip this c :
  (nano c < 0 -> Builder.storeCoins c this = (Throw NegativeAmount, this)) /\
  (0 <= nano c < 2 ^ 120 -> coinsBitsSize c <= Builder.remainder this ->
     fst (Builder.storeCoins c this) = Ok tt /\
     fst ((Slice.skip (len (Builder._bits this)) ;; Slice.loadCoins)
            (parse (Builder.cell (snd (Builder.storeCoins c this)))))
     = Ok c /\
     (nano c = 0 ->
      snd (Builder.storeCoins c this)
      = appendBits this [false; false; false; false])) /\
  (2 ^ 120 <= nano c ->
     snd (Builder.storeCoins c this) = this /\
     (fst (Builder.storeCoins c this) = Throw RangeError \/
      fst (Builder.storeCoins c this) = Throw BitOverflow)).
Proof.
  rewrite storeCoins_run. unfold coinsBitsSize, isZero.
  split; [|split].
  - intros Hneg. destruct (Z.ltb_spec (nano c) 0); [reflexivity | lia].
  - intros Hnano Hroom. destruct (Z.ltb_spec (nano c) 0); [lia|].
    destruct (Z.eqb_spec (nano c) 0) as [Hzero|Hpos].
    + rewrite storeBits_run. split_if; [room|]. cbn [fst snd].
      split; [reflexivity|]. split; [|reflexivity].
      rewrite read_after_store, loadCoins_zero. cbn [fst].
      destruct c as [v]. cbn in Hzero. now subst v.
    + destruct (coinsByteLength_spec c ltac:(lia)) as (HL1 & Hfit & HL16).
      apply proj1 in HL16. specialize (HL16 ltac:(lia)).
      split_if; [lia|]. split_if; [lia|]. cbn [fst snd].
      split; [reflexivity|]. split; [|intros; lia].
      rewrite read_after_store, loadCoins_stored by lia. reflexivity.
  - intros Hbig. assert (0 < 2 ^ 120) by reflexivity.
    destruct (Z.ltb_spec (nano c) 0); [lia|].
    destruct (Z.eqb_spec (nano c) 0); [lia|].
    destruct (coinsByteLength_spec c ltac:(lia)) as (HL1 & Hfit & HL16).
    split_if; [split; [reflexivity | now right]|].
    split_if; [split; [reflexivity | now left]|].
    apply proj2 in HL16. specialize (HL16 ltac:(lia)). lia.
Qed.

Lemma coins_roundtrip_witness :
  Builder.storeCoins {| nano := -1 |} (Builder.new 1023)
  = (Throw NegativeAmount, Builder.new 1023) /\
  readBack (Builder.storeCoins {| nano := 0 |}) (Slice.skip 0 ;; Slice.loadCoins)
  = Ok {| nano := 0 |} /\
  readBack (Builder.storeCoins {| nano := 256 |}) (Slice.skip 0 ;; Slice.loadCoins)
  = Ok {| nano := 256 |} /\
  snd (Builder.storeCoins {| nano := 2 ^ 255 |} (Builder.new 1023)) = Builder.new 1023.
Proof.
  unfold readBack, Builder.DEFAULT_SIZE.
  split; [|split; [|split]].
  - apply (proj1 (coins_roundtrip (Builder.new 1023) {| nano := -1 |})).
    cbn. lia.
  - apply (proj1 (proj2 (coins_roundtrip (Builder.new 1023) {| nano := 0 |})));
      [cbn; lia | vm_compute; discriminate].
  - apply (proj1 (proj2 (coins_roundtrip (Builder.new 1023) {| nano := 256 |})));
      [cbn; lia | vm_compute; discriminate].
  - apply (proj2 (proj2 (coins_roundtrip (Builder.new 1023) {| nano := 2 ^ 255 |}))).
    cbn. lia.
Defined.

(** C7 as stated fails on an amount that needs 32 bytes: the length nibble
    has four bits, [storeCoins] calls [storeUint(32, 4)] and that call throws
    the range error; nothing is stored, so nothing is read back. *)
Lemma coins_32_bytes_rejected :
  let c := {| nano := 2 ^ 255 |} in
  coinsByteLength c = 32 /\
  fst (Builder.storeCoins c (Builder.new 1023)) = Throw RangeError /\
  readBack (Builder.storeCoins c) Slice.loadCoins <> Ok c.
Proof. vm_compute. repeat split; discriminate. Qed.

(** ** MessageX: inline or by reference *)

Lemma storeSlice_info info :
  len (cell_bits info) <= 1023 -> len (cell_refs info) <= 4 ->
  Builder.storeSlice (parse info) (Builder.new Builder.DEFAULT_SIZE)
  = (Ok tt, afterInfo info).
Proof.
  intros Hbits Hrefs. rewrite storeSlice_run.
  unfold parse, Slice.bits, Slice.refs. cbn [Slice._bits Slice._refs].
  unfold Builder.remainder, Builder.new, Builder.DEFAULT_SIZE.
  cbn [Builder._size Builder._bits Builder._refs].
  split_if; [room|]. split_if; [room|]. reflexivity.
Qed.

Lemma MessageX_afterInfo info init body :
  len (cell_bits info) <= 1023 -> len (cell_refs info) <= 4 ->
  MsgTemplate.MessageX (MsgTemplate.mkMessageXOptions info init body)
  = continueFrom (MsgTemplate.storeInit init) body (afterInfo info).
Proof.
  intros Hbits Hrefs. unfold MsgTemplate.MessageX, continueFrom.
  cbn [MsgTemplate.info MsgTemplate.init MsgTemplate.body].
  unfold bind at 1. now rewrite storeSlice_info.
Qed.

Lemma continueFrom_step m1 m2 body builder builder' :
  m1 builder = (Ok tt, builder') ->
  continueFrom (m1 ;; m2) body builder = continueFrom m2 body builder'.
Proof.
  intros Hstep. unfold continueFrom, bind. rewrite Hstep.
  reflexivity.
Qed.

Lemma continueFrom_done m body builder builder' :
  m builder = (Ok tt, builder') ->
  continueFrom m body builder = continueFrom (ret tt) body builder'.
Proof. intros Hstep. unfold continueFrom, bind, ret. now rewrite Hstep. Qed.

Lemma continueFrom_throw m body builder builder' e :
  m builder = (Throw e, builder') ->
  continueFrom m body builder = Throw e.
Proof. intros Hstep. unfold continueFrom, bind. now rewrite Hstep. Qed.

Lemma storeBit_ok (x : Bit) builder :
  1 <= Builder.remainder builder ->
  Builder.storeBit (Z.b2z x) builder = (Ok tt, appendBits builder [x]).
Proof. intros Hroom. rewrite storeBit_b2z. split_if; [lia | reflexivity]. Qed.

(** C4. In [MessageX] with an [init] cell, let [builder] be the Builder
    once the header is merged in and the presence bit 1 is stored. If
    [builder.remainder - 1] is smaller than the bit length of [init], the
    envelope goes on with [storeBit(1).storeRef(init)]: with a bit of room
    and fewer than four refs, the bit 1 and the reference to [init] are
    appended. Otherwise it goes on with [storeBit(0).storeSlice(init.parse())]:
    when the refs of [init] fit, the bit 0, the bits of [init] and the refs of
    [init] are appended. *)
Theorem MessageX_init_placement info init body :
  len (cell_bits info) <= 1022 -> len (cell_refs info) <= 4 ->
  let options := MsgTemplate.mkMessageXOptions info (Some init) body in
  let builder := appendBits (afterInfo info) [true] in
  (Builder.remainder builder - 1 < len (cell_bits init) ->
     MsgTemplate.MessageX options
     = continueFrom (Builder.storeBit 1 ;; Builder.storeRef init) body builder /\
     (1 <= Builder.remainder builder -> len (cell_refs info) < 4 ->
      MsgTemplate.MessageX options
      = continueFrom (ret tt) body
          (appendRefs (appendBits builder [true]) [init]))) /\
  (len (cell_bits init) <= Builder.remainder builder - 1 ->
     MsgTemplate.MessageX options
     = continueFrom (Builder.storeBit 0 ;; Builder.storeSlice (parse init)) body builder /\
     (len (cell_refs info) + len (cell_refs init) <= 4 ->
      MsgTemplate.MessageX options
      = continueFrom (ret tt) body
          (appendRefs (appendBits builder (false :: cell_bits init))
             (cell_refs init)))).
Proof.
  intros Hbits Hrefs options builder. subst options.
  rewrite MessageX_afterInfo by lia.
  assert (Hpresence : Builder.storeBit 1 (afterInfo info) = (Ok tt, builder)).
  { apply (storeBit_ok true). unfold Builder.remainder, afterInfo.
    cbn [Builder._size Builder._bits]. unfold Builder.DEFAULT_SIZE. lia. }
  unfold MsgTemplate.storeInit.
  rewrite (continueFrom_step _ _ _ _ _ Hpresence).
  assert (Hrem : Builder.remainder builder = 1022 - len (cell_bits info)).
  { subst builder. rewrite remainder_appendBits.
    unfold Builder.remainder, afterInfo, Builder.DEFAULT_SIZE.
    cbn [Builder._size Builder._bits]. room. }
  split; intros Hchoice.
  - assert (Hbranch :
      continueFrom
        (fun builder0 =>
           (if Builder.remainder builder0 - 1 >=? len (cell_bits init)
            then Builder.storeBit 0 ;; Builder.storeSlice (parse init)
            else Builder.storeBit 1 ;; Builder.storeRef init) builder0) body builder
      = continueFrom (Builder.storeBit 1 ;; Builder.storeRef init) body builder).
    { unfold continueFrom, bind at 1 4.
      destruct (Z.geb_spec (Builder.remainder builder - 1) (len (cell_bits init)));
        [lia | reflexivity]. }
    rewrite Hbranch. split; [reflexivity|]. intros Hroom Hfew.
    rewrite (continueFrom_step _ _ _ _ _ (storeBit_ok true builder Hroom)).
    apply continueFrom_done. rewrite storeRef_run.
    split_if; [|reflexivity].
    subst builder. unfold appendBits, afterInfo in *.
    cbn [Builder._refs] in *. lia.
  - assert (Hbranch :
      continueFrom
        (fun builder0 =>
           (if Builder.remainder builder0 - 1 >=? len (cell_bits init)
            then Builder.storeBit 0 ;; Builder.storeSlice (parse init)
            else Builder.storeBit 1 ;; Builder.storeRef init) builder0) body builder
      = continueFrom (Builder.storeBit 0 ;; Builder.storeSlice (parse init))
          body builder).
    { unfold continueFrom, bind at 1 4.
      destruct (Z.geb_spec (Builder.remainder builder - 1) (len (cell_bits init)));
        [reflexivity | lia]. }
    rewrite Hbranch. split; [reflexivity|]. intros Hfit.
    pose proof (len_nonneg (cell_bits init)).
    rewrite (continueFrom_step _ _ _ _ _
               (storeBit_ok false builder ltac:(lia))).
    apply continueFrom_done. rewrite storeSlice_run.
    unfold parse, Slice.bits, Slice.refs. cbn [Slice._bits Slice._refs].
    rewrite remainder_appendBits.
    split_if; [room|].
    split_if; [subst builder; unfold appendBits, afterInfo in *;
               cbn [Builder._refs] in *; lia|].
    now rewrite appendBits_app.
Qed.

Lemma MessageX_init_placement_witness :
  let big := mkCell (repeat true 30) [] in
  let small := mkCell [true; false; true] [mkCell [] []] in
  MsgTemplate.MessageX
    (MsgTemplate.mkMessageXOptions (mkCell (repeat false 1000) []) (Some big) None)
  = Ok (mkCell (repeat false 1000 ++ [true; true; false]) [big]) /\
  MsgTemplate.MessageX
    (MsgTemplate.mkMessageXOptions (mkCell (repeat false 1000) []) (Some small) None)
  = Ok (mkCell (repeat false 1000 ++ [true; false] ++ [true; false; true] ++ [false])
          [mkCell [] []]).
Proof.
  intros big small. split.
  - rewrite (proj2 (proj1 (MessageX_init_placement (mkCell (repeat false 1000) [])
                             big None ltac:(now vm_compute) ltac:(now vm_compute))
                      ltac:(now vm_compute))
               ltac:(now vm_compute) ltac:(now vm_compute)).
    now vm_compute.
  - rewrite (proj2 (proj2 (MessageX_init_placement (mkCell (repeat false 1000) [])
                             small None ltac:(now vm_compute) ltac:(now vm_compute))
                      ltac:(now vm_compute))
               ltac:(now vm_compute)).
    now vm_compute.
Defined.

Lemma remainder_afterInfo_flag info (x : Bit) :
  Builder.remainder (appendBits (afterInfo info) [x]) = 1022 - len (cell_bits info).
Proof.
  rewrite remainder_appendBits.
  unfold Builder.remainder, afterInfo, Builder.DEFAULT_SIZE.
  cbn [Builder._size Builder._bits]. room.
Qed.

Lemma storeBit_afterInfo info (x : Bit) :
  len (cell_bits info) <= 1022 ->
  Builder.storeBit (Z.b2z x) (afterInfo info)
  = (Ok tt, appendBits (afterInfo info) [x]).
Proof.
  intros Hbits. apply storeBit_ok. unfold Builder.remainder, afterInfo.
  cbn [Builder._size Builder._bits]. unfold Builder.DEFAULT_SIZE. lia.
Qed.

(** The inline stores, [storeBit(0).storeSlice(cell.parse())], on a Builder
    that has room for the bits but not for the refs. *)
Lemma inline_refs_overflow builder cell :
  len (cell_bits cell) <= Builder.remainder builder - 1 ->
  len (Builder._refs builder) + len (cell_refs cell) > 4 ->
  (Builder.storeBit 0 ;; Builder.storeSlice (parse cell)) builder
  = (Throw RefOverflow, appendBits builder [false]).
Proof.
  intros Hfit Hover. pose proof (len_nonneg (cell_bits cell)).
  unfold bind. rewrite (storeBit_ok false) by lia.
  rewrite storeSlice_run.
  unfold parse, Slice.bits, Slice.refs. cbn [Slice._bits Slice._refs].
  rewrite remainder_appendBits. split_if; [room|].
  split_if; [reflexivity|].
  unfold appendBits in *. cbn [Builder._refs] in *. lia.
Qed.

(** C10. When the bits of a cell pass the inline test of [MessageX] but
    the header and the cell hold more than four refs together, [MessageX]
    throws the refs-overflow error from the inline [storeSlice]; it does not
    fall back to storing the cell by reference. This holds of an [init]
    cell (whatever the body) and of a [body] cell (without [init]); the test
    looks at bit lengths only. Inputs of this kind exist: see the instance
    below. *)
Theorem MessageX_inline_refs_overflow info cell other :
  len (cell_bits info) <= 1022 -> len (cell_refs info) <= 4 ->
  len (cell_bits cell) <= 1022 - len (cell_bits info) - 1 ->
  len (cell_refs info) + len (cell_refs cell) > 4 ->
  MsgTemplate.MessageX (MsgTemplate.mkMessageXOptions info (Some cell) other)
  = Throw RefOverflow /\
  MsgTemplate.MessageX (MsgTemplate.mkMessageXOptions info None (Some cell))
  = Throw RefOverflow.
Proof.
  intros Hbits Hrefs Hfit Hover.
  pose proof (len_nonneg (cell_bits cell)) as Hcell.
  rewrite !MessageX_afterInfo by lia. split.
  - unfold MsgTemplate.storeInit.
    rewrite (continueFrom_step _ _ _ _ _ (storeBit_afterInfo info true Hbits)).
    unfold continueFrom, bind at 1.
    rewrite remainder_afterInfo_flag.
    destruct (Z.geb_spec (1022 - len (cell_bits info) - 1) (len (cell_bits cell)));
      [|lia].
    rewrite inline_refs_overflow;
      [reflexivity | rewrite remainder_afterInfo_flag; lia | exact Hover].
  - cbn [MsgTemplate.storeInit].
    pose proof (storeBit_afterInfo info false Hbits) as Hflag.
    cbn [Z.b2z] in Hflag.
    unfold continueFrom, bind at 1. rewrite Hflag.
    unfold bind at 1. unfold MsgTemplate.storeBody.
    rewrite remainder_afterInfo_flag.
    destruct (Z.geb_spec (1022 - len (cell_bits info)) (len (cell_bits cell)));
      [|lia].
    rewrite inline_refs_overflow;
      [reflexivity | rewrite remainder_afterInfo_flag; lia | exact Hover].
Qed.

Lemma MessageX_inline_refs_overflow_witness :
  let leaf := mkCell [] [] in
  let info := mkCell [false; true] [leaf] in
  let cell := mkCell [true] [leaf; leaf; leaf; leaf] in
  MsgTemplate.MessageX (MsgTemplate.mkMessageXOptions info (Some cell) None)
  = Throw RefOverflow /\
  MsgTemplate.MessageX (MsgTemplate.mkMessageXOptions info None (Some cell))
  = Throw RefOverflow.
Proof.
  intros leaf info cell.
  apply (MessageX_inline_refs_overflow info cell None); now vm_compute.
Defined.

(* ------------------------------------------------------------------ *)
(** * Further properties of the Builder, the Slice and the templates *)

(** ** Builder: stores only append *)

(** X1. A store call that succeeds only appends: the Builder keeps its
    size, its earlier bits and refs stay in front, unchanged, and the
    remainder drops by exactly the number of bits appended and stays
    non-negative. *)
Theorem store_append_only stringToBytes op this :
  within_bounds this -> well_typed op = true ->
  fst (runOp stringToBytes op this) = Ok tt ->
  exists bits refs,
    snd (runOp stringToBytes op this) = appendRefs (appendBits this bits) refs /\
    Builder.remainder (snd (runOp stringToBytes op this))
    = Builder.remainder this - len bits /\
    0 <= Builder.remainder (snd (runOp stringToBytes op this)).
Proof.
  intros Hin Hty Hok.
  destruct (runOp_atomic stringToBytes op this Hin Hty)
    as [(e & Hthrow) | (bits & refs & Hrun & Hbits & Hrefs)].
  - rewrite Hthrow in Hok. discriminate Hok.
  - exists bits, refs. rewrite Hrun. cbn [snd].
    rewrite remainder_appendRefs, remainder_appendBits. repeat split; lia.
Qed.

Lemma store_append_only_witness :
  exists bits refs,
    snd (Builder.storeCoins {| nano := 300 |} (Builder.new 64))
    = appendRefs (appendBits (Builder.new 64) bits) refs /\
    Builder.remainder (snd (Builder.storeCoins {| nano := 300 |} (Builder.new 64)))
    = Builder.remainder (Builder.new 64) - len bits /\
    0 <= Builder.remainder (snd (Builder.storeCoins {| nano := 300 |} (Builder.new 64))).
Proof.
  apply (store_append_only (fun _ => []) (OpStoreCoins {| nano := 300 |})
           (Builder.new 64)).
  - split; cbn; lia.
  - reflexivity.
  - reflexivity.
Defined.

(** ** Builder: clone and storeSlice *)

(** X2. [clone()] of a Builder that holds no more bits than its size
    gives a Builder of the same size with the same bits and no refs: the
    refs are not copied. *)
Theorem clone_drops_refs this :
  len (Builder._bits this) <= Builder._size this ->
  fst (Builder.storeBits (Builder._bits this) (Builder.new (Builder._size this)))
  = Ok tt /\
  Builder.clone this
  = {| Builder._size := Builder._size this;
       Builder._refs := [];
       Builder._bits := Builder._bits this |}.
Proof.
  intros Hfit. unfold Builder.clone. rewrite storeBits_run.
  unfold Builder.remainder, Builder.new. cbn [Builder._size Builder._bits].
  split_if; [room|]. split; reflexivity.
Qed.

Lemma clone_drops_refs_witness :
  Builder.clone {| Builder._size := 8;
                   Builder._refs := [mkCell [] []];
                   Builder._bits := [true; false] |}
  = {| Builder._size := 8; Builder._refs := []; Builder._bits := [true; false] |}.
Proof.
  apply (clone_drops_refs {| Builder._size := 8;
                             Builder._refs := [mkCell [] []];
                             Builder._bits := [true; false] |}).
  cbn. lia.
Defined.

(** X3. Merging the Slice of a cell into a new Builder and taking the
    cell of that Builder gives the cell back, bits and refs in the same
    order, provided the cell has at most [size] bits and four refs; with
    more bits the merge throws the bits-overflow error, with more refs (and
    bits that fit) the refs-overflow error, the Builder staying empty. *)
Theorem storeSlice_cell_roundtrip size c :
  (len (cell_bits c) <= size -> len (cell_refs c) <= 4 ->
   fst (Builder.storeSlice (parse c) (Builder.new size)) = Ok tt /\
   Builder.cell (snd (Builder.storeSlice (parse c) (Builder.new size))) = c) /\
  (len (cell_bits c) > size ->
   Builder.storeSlice (parse c) (Builder.new size)
   = (Throw BitOverflow, Builder.new size)) /\
  (len (cell_bits c) <= size -> len (cell_refs c) > 4 ->
   Builder.storeSlice (parse c) (Builder.new size)
   = (Throw RefOverflow, Builder.new size)).
Proof.
  rewrite storeSlice_run.
  unfold parse, Slice.bits, Slice.refs. cbn [Slice._bits Slice._refs].
  unfold Builder.remainder, Builder.new. cbn [Builder._size Builder._bits Builder._refs].
  split; [|split].
  - intros Hbits Hrefs. split_if; [room|]. split_if; [room|].
    split; [reflexivity|]. now destruct c.
  - intros Hbits. split_if; [reflexivity | room].
  - intros Hbits Hrefs. split_if; [room|]. split_if; [reflexivity | room].
Qed.

Lemma storeSlice_cell_roundtrip_witness :
  let c := mkCell [true; true; false] [mkCell [false] []; mkCell [] []] in
  Builder.cell (snd (Builder.storeSlice (parse c) (Builder.new 3))) = c /\
  Builder.storeSlice (parse c) (Builder.new 2) = (Throw BitOverflow, Builder.new 2).
Proof.
  intros c. split.
  - apply (proj1 (storeSlice_cell_roundtrip 3 c)); cbn; lia.
  - apply (proj1 (proj2 (storeSlice_cell_roundtrip 2 c))). cbn. lia.
Defined.

(** ** Padding: what rollbackBits accepts, and alignment *)

Lemma indexOf1_Some l : forall i,
  Builder.indexOf1 l = Some i ->
  exists q, l = repeat false i ++ true :: q.
Proof.
  induction l as [|b l IH]; intros i Hfound; [discriminate|].
  cbn [Builder.indexOf1] in Hfound. destruct b.
  - injection Hfound as <-. now exists l.
  - destruct (Builder.indexOf1 l) as [j|]; [|discriminate].
    injection Hfound as <-. destruct (IH j eq_refl) as [q ->].
    now exists q.
Qed.

Lemma indexOf1_None l :
  Builder.indexOf1 l = None -> l = repeat false (length l).
Proof.
  induction l as [|b l IH]; intros Hnone; [reflexivity|].
  cbn [Builder.indexOf1] in Hnone. destruct b; [discriminate|].
  destruct (Builder.indexOf1 l); [discriminate|].
  cbn [length repeat]. now rewrite <- IH.
Qed.

(** X4. [rollbackBits(bits)] returns [rest] exactly when [bits] is [rest]
    followed by a 1 and at most six zeros; it throws exactly when the last
    seven bits (all the bits, when there are fewer) are zeros. So it undoes
    any padding of one to seven bits, and nothing else. *)
Theorem rollbackBits_iff bits :
  (forall rest, Builder.rollbackBits bits = Ok rest <->
                exists k, (k < 7)%nat /\ bits = rest ++ padding k) /\
  (Builder.rollbackBits bits = Throw MalformedPadding <->
   Builder.sliceLast7 bits = repeat false (length (Builder.sliceLast7 bits))).
Proof.
  split.
  - intros rest. split.
    + unfold Builder.rollbackBits.
      destruct (Builder.indexOf1 (rev (Builder.sliceLast7 bits))) as [i|] eqn:Hindex;
        [|discriminate].
      intros Hok. injection Hok as <-.
      destruct (indexOf1_Some _ _ Hindex) as [q Hq].
      unfold Builder.sliceLast7 in Hq. rewrite <- firstn_rev in Hq.
      assert (Hi : (i < 7)%nat).
      { assert (Hlen : (length (firstn 7 (rev bits)) <= 7)%nat)
          by (rewrite length_firstn; lia).
        rewrite Hq, length_app, repeat_length in Hlen. cbn [length] in Hlen. lia. }
      exists i. split; [exact Hi|].
      assert (Hrev : rev bits = repeat false i ++ true :: q ++ skipn 7 (rev bits)).
      { rewrite <- (firstn_skipn 7 (rev bits)) at 1. rewrite Hq.
        now rewrite <- app_assoc. }
      apply (f_equal (@rev Bit)) in Hrev. rewrite rev_involutive in Hrev.
      rewrite rev_app_distr in Hrev. cbn [rev] in Hrev.
      rewrite rev_repeat, <- app_assoc in Hrev. cbn [app] in Hrev.
      fold (padding i) in Hrev.
      remember (rev (q ++ skipn 7 (rev bits))) as front eqn:Hfront.
      clear Hfront Hq Hindex. subst bits.
      rewrite length_app. unfold padding at 2. cbn [length].
      rewrite repeat_length.
      replace (length front + S i - (i + 1))%nat with (length front + 0)%nat by lia.
      rewrite firstn_app_2. cbn [firstn]. now rewrite app_nil_r.
    + intros (k & Hk & ->). now apply rollbackBits_padding.
  - unfold Builder.rollbackBits.
    destruct (Builder.indexOf1 (rev (Builder.sliceLast7 bits))) as [i|] eqn:Hindex.
    + split; [discriminate|]. intros Hzeros. exfalso.
      destruct (indexOf1_Some _ _ Hindex) as [q Hq].
      rewrite Hzeros, rev_repeat in Hq.
      assert (Hin : In true (repeat false (length (Builder.sliceLast7 bits))))
        by (rewrite Hq; apply in_or_app; right; now left).
      apply repeat_spec in Hin. discriminate Hin.
    + split; [|reflexivity]. intros _.
      apply indexOf1_None in Hindex.
      apply (f_equal (@rev Bit)) in Hindex.
      now rewrite rev_involutive, rev_repeat, length_rev in Hindex.
Qed.

(** X5. The result of [augmentBits] always has a length that is a
    multiple of the divider, and augmenting it again changes nothing. *)
Theorem augmentBits_aligned bits d :
  len (Builder.augmentBits bits d) mod Builder.dividerValue d = 0 /\
  Builder.augmentBits (Builder.augmentBits bits d) d = Builder.augmentBits bits d.
Proof.
  assert (Haligned : len (Builder.augmentBits bits d) mod Builder.dividerValue d = 0).
  { rewrite augmentBits_run.
    assert (Hd : 0 < Builder.dividerValue d) by (destruct d; reflexivity).
    pose proof (Z.mod_pos_bound (len bits) _ Hd) as Hr.
    destruct (Z.eqb_spec (len bits mod Builder.dividerValue d) 0) as [Hz|Hnz];
      [exact Hz|].
    rewrite len_app, len_padding.
    replace (len bits + (1 + Z.of_nat (Z.to_nat (Builder.dividerValue d
               - len bits mod Builder.dividerValue d - 1))))
      with (len bits - len bits mod Builder.dividerValue d
            + 1 * Builder.dividerValue d) by lia.
    rewrite Z.mod_add by lia.
    rewrite Zminus_mod, Z.mod_mod, Z.sub_diag by lia. apply Z.mod_0_l. lia. }
  split; [exact Haligned|].
  rewrite (augmentBits_run (Builder.augmentBits bits d)), Haligned. reflexivity.
Qed.

(** ** Slice: how reads compose *)

Lemma firstn_plus {A} n m : forall l : list A,
  firstn (n + m) l = firstn n l ++ firstn m (skipn n l).
Proof.
  induction n as [|n IH]; intros l; [reflexivity|].
  destruct l as [|x l]; cbn [Nat.add firstn skipn app].
  - now rewrite firstn_nil.
  - now rewrite IH.
Qed.

(** X6. Reading [n] bits and then [m] bits gives the two consecutive
    parts of what reading [n + m] bits at once gives, and leaves the same
    Slice. *)
Theorem loadBits_split n m slice :
  0 < n -> 0 < m -> n + m <= len (Slice._bits slice) ->
  (first <- Slice.loadBits n ;; second <- Slice.loadBits m ;; ret (first ++ second))
    slice
  = Slice.loadBits (n + m) slice.
Proof.
  intros Hn Hm Hfit. unfold bind, ret, Slice.loadBits.
  destruct (Z.leb_spec n 0); [lia|].
  destruct (Z.ltb_spec (len (Slice._bits slice)) n); [lia|].
  cbn [orb Slice._bits Slice._refs].
  assert (Hskip : len (skipn (Z.to_nat n) (Slice._bits slice))
                  = len (Slice._bits slice) - n)
    by (unfold len in *; rewrite length_skipn; lia).
  rewrite Hskip.
  destruct (Z.leb_spec m 0); [lia|].
  destruct (Z.ltb_spec (len (Slice._bits slice) - n) m); [lia|].
  destruct (Z.leb_spec (n + m) 0); [lia|].
  destruct (Z.ltb_spec (len (Slice._bits slice)) (n + m)); [lia|].
  cbn [orb]. rewrite Z2Nat.inj_add by lia.
  rewrite skipn_skipn, (Nat.add_comm (Z.to_nat m)).
  now rewrite firstn_plus.
Qed.

Lemma loadBits_split_witness :
  let slice := Slice.mkSlice [true; false; false; true; true] [] in
  (first <- Slice.loadBits 2 ;; second <- Slice.loadBits 3 ;; ret (first ++ second))
    slice
  = Slice.loadBits (2 + 3) slice.
Proof.
  intros slice. apply (loadBits_split 2 3 slice); cbn; lia.
Defined.

(** X7. [skip] adds up: skipping [n] and then [m] bits is skipping
    [n + m] bits, when the Slice holds that many; and [skip] of a size that
    is zero or negative succeeds and leaves the Slice as it is, where
    [loadBits] and [preloadBits] of such a size throw. *)
Theorem skip_additive n m slice :
  (0 <= n -> 0 <= m -> n + m <= len (Slice._bits slice) ->
   (Slice.skip n ;; Slice.skip m) slice = Slice.skip (n + m) slice) /\
  (n <= 0 ->
   Slice.skip n slice = (Ok tt, slice) /\
   Slice.loadBits n slice = (Throw BitOverflow, slice) /\
   Slice.preloadBits n slice = (Throw BitOverflow, slice)).
Proof.
  split.
  - intros Hn Hm Hfit. unfold bind, Slice.skip.
    destruct (Z.ltb_spec (len (Slice._bits slice)) n); [lia|].
    cbn [Slice._bits Slice._refs].
    assert (Hskip : len (skipn (Z.to_nat n) (Slice._bits slice))
                    = len (Slice._bits slice) - n)
      by (unfold len in *; rewrite length_skipn; lia).
    rewrite Hskip.
    destruct (Z.ltb_spec (len (Slice._bits slice) - n) m); [lia|].
    destruct (Z.ltb_spec (len (Slice._bits slice)) (n + m)); [lia|].
    rewrite Z2Nat.inj_add by lia.
    now rewrite skipn_skipn, (Nat.add_comm (Z.to_nat m)).
  - intros Hn. pose proof (len_nonneg (Slice._bits slice)).
    unfold Slice.skip, Slice.loadBits, Slice.preloadBits.
    destruct (Z.ltb_spec (len (Slice._bits slice)) n); [lia|].
    destruct (Z.leb_spec n 0); [|lia]. cbn [orb].
    replace (Z.to_nat n) with 0%nat by lia. cbn [skipn].
    repeat split. now destruct slice.
Qed.

Lemma skip_additive_witness :
  let slice := Slice.mkSlice [true; false; false; true; true] [] in
  (Slice.skip 1 ;; Slice.skip 3) slice = Slice.skip (1 + 3) slice /\
  Slice.skip (-2) slice = (Ok tt, slice) /\
  Slice.loadBits (-2) slice = (Throw BitOverflow, slice).
Proof.
  intros slice. split; [|split].
  - apply (proj1 (skip_additive 1 3 slice)); cbn; lia.
  - apply (proj2 (skip_additive (-2) 0 slice)). lia.
  - apply (proj2 (skip_additive (-2) 0 slice)). lia.
Defined.

Section WholeString.

Variable Uint8Array : Type.
Variable bitsToBytes : list Bit -> Uint8Array.
Variable bytesToString : Uint8Array -> String.string.

(** X8. [loadString()] without a size decodes all the bits that are left
    and leaves none of them (the refs stay); on a Slice with no bits left it
    throws the bits-overflow error instead of returning an empty string. *)
Theorem loadString_whole slice :
  (Slice._bits slice <> [] ->
   Slice.loadString Uint8Array bitsToBytes bytesToString None slice
   = (Ok (bytesToString (bitsToBytes (Slice._bits slice))),
      Slice.mkSlice [] (Slice._refs slice))) /\
  (Slice._bits slice = [] ->
   Slice.loadString Uint8Array bitsToBytes bytesToString None slice
   = (Throw BitOverflow, slice)).
Proof.
  unfold Slice.loadString, Slice.loadBytes, bind, ret. split.
  - intros Hsome. destruct slice as [bits refs]. cbn [Slice._bits Slice._refs] in *.
    rewrite loadBits_all; [reflexivity | reflexivity |].
    destruct bits; [contradiction | rewrite len_cons; pose proof (len_nonneg bits); lia].
  - intros Hnone. rewrite Hnone. reflexivity.
Qed.

End WholeString.

Lemma loadString_whole_witness :
  Slice.loadString (list Bit) (fun bits => bits) (fun _ => String.EmptyString) None
    (Slice.mkSlice [] [mkCell [] []])
  = (Throw BitOverflow, Slice.mkSlice [] [mkCell [] []]) /\
  Slice.loadString (list Bit) (fun bits => bits) (fun _ => String.EmptyString) None
    (Slice.mkSlice [true] [mkCell [] []])
  = (Ok String.EmptyString, Slice.mkSlice [] [mkCell [] []]).
Proof.
  split.
  - apply (proj2 (loadString_whole (list Bit) (fun bits => bits)
                    (fun _ => String.EmptyString) (Slice.mkSlice [] [mkCell [] []]))).
    reflexivity.
  - apply (proj1 (loadString_whole (list Bit) (fun bits => bits)
                    (fun _ => String.EmptyString) (Slice.mkSlice [true] [mkCell [] []]))).
    discriminate.
Defined.

(** ** Fields: stored one after the other, read one after the other *)

Lemma reduceUint_exact_value l : forall i acc,
  0 <= i -> 0 <= acc -> acc + 2 ^ i * leValue l < 2 ^ 53 ->
  Slice.reduceUint l i acc = acc + 2 ^ i * leValue l.
Proof.
  induction l as [|b l IH]; intros i acc Hi Hacc Hsmall.
  - cbn. lia.
  - cbn [Slice.reduceUint leValue] in *.
    pose proof (leValue_bound l) as [Hrest _].
    assert (Hpow : 0 < 2 ^ i) by (apply Z.pow_pos_nonneg; lia).
    assert (Hstep : 2 ^ (i + 1) = 2 * 2 ^ i) by (rewrite Z.pow_add_r; lia).
    assert (Hprod : 0 <= 2 ^ i * leValue l) by (apply Z.mul_nonneg_nonneg; lia).
    unfold JsNumber.add, JsNumber.mul, JsNumber.pow2.
    destruct b; cbn [Z.b2z] in *.
    + rewrite (fround_small (1 * 2 ^ i)) by lia.
      rewrite fround_small by lia.
      rewrite IH by (rewrite ?Hstep; lia). rewrite Hstep. ring.
    + rewrite Z.mul_0_l, (fround_small 0) by (cbn; lia).
      rewrite fround_small by lia.
      rewrite IH by (rewrite ?Hstep; lia). rewrite Hstep. ring.
Qed.

Lemma bitsToUint_exact_value l :
  Helpers.bitsToZ l < 2 ^ 53 -> Slice.bitsToUint l = Helpers.bitsToZ l.
Proof.
  intros Hsmall. unfold Slice.bitsToUint.
  rewrite reduceUint_exact_value; rewrite ?leValue_rev, ?Z.pow_0_r; lia.
Qed.

Lemma loadUint_field value n rest refs :
  1 <= n -> 0 <= value < 2 ^ n -> value < 2 ^ 53 ->
  Slice.loadUint n (Slice.mkSlice (Builder.numberBits value n ++ rest) refs)
  = (Ok value, Slice.mkSlice rest refs).
Proof.
  intros Hn Hv Hsmall. unfold Slice.loadUint, bind, ret.
  rewrite loadBits_prefix by (rewrite ?length_numberBits; lia).
  rewrite bitsToUint_exact_value;
    rewrite bitsToZ_numberBits, Z.mod_small by lia; [reflexivity | lia].
Qed.

Lemma loadInt_field value n rest refs :
  1 <= n <= 31 -> - 2 ^ (n - 1) <= value < 2 ^ (n - 1) ->
  Slice.loadInt n (Slice.mkSlice (Builder.numberBits value n ++ rest) refs)
  = (Ok value, Slice.mkSlice rest refs).
Proof.
  intros Hn Hv. unfold Slice.loadInt, Slice.loadUint, bind, ret.
  rewrite loadBits_prefix by (rewrite ?length_numberBits; lia).
  rewrite bitsToUint_exact by (rewrite length_numberBits; lia).
  rewrite bitsToZ_numberBits by lia.
  now rewrite uintToInt_twos_complement.
Qed.

Lemma loadAddress_field address rest refs :
  match address with Some a => Address_valid a = true | None => True end ->
  Slice.loadAddress (Slice.mkSlice (addressFieldBits address ++ rest) refs)
  = (Ok address, Slice.mkSlice rest refs).
Proof.
  destruct address as [a|]; intros Hvalid.
  2:{ cbn [addressFieldBits]. unfold Slice.loadAddress.
      rewrite bind_preloadBits, loadBits_prefix by (reflexivity || lia).
      cbn [fst]. change (Slice.every [false; false] Slice.FLAG_ADDRESS_NO) with true.
      cbv iota. unfold bind, ret.
      change 2 with (len [false; false]) at 1. now rewrite skip_prefix. }
  apply Address_valid_spec in Hvalid as (Hwc & Hlen & Hbytes).
  cbn [addressFieldBits].
  unfold Slice.loadAddress. rewrite bind_preloadBits.
  change (addressBits a ++ rest)
    with ([true; false] ++
          ([false] ++ Builder.numberBits (workchain a) 8 ++ bytesBits (hash a)) ++ rest).
  rewrite loadBits_prefix by (reflexivity || lia).
  cbn [fst]. change (Slice.every [true; false] Slice.FLAG_ADDRESS_NO) with false.
  change (Slice.every [true; false] Slice.FLAG_ADDRESS) with true.
  cbv iota zeta. rewrite bind_preloadBits.
  change ([true; false] ++
          ([false] ++ Builder.numberBits (workchain a) 8 ++ bytesBits (hash a)) ++ rest)
    with (addressBits a ++ rest).
  rewrite loadBits_prefix by (rewrite ?len_addressBits; (assumption || reflexivity)).
  cbn [fst]. unfold bind, ret.
  rewrite <- (len_addressBits a Hlen) at 1. rewrite skip_prefix.
  unfold addressBits. rewrite addressRaw_layout; try reflexivity.
  - unfold newAddress. cbn [fst snd].
    rewrite bitsToInt8_numberBits, hexToBytes_bytesBits by assumption.
    now destruct a.
  - pose proof (len_bytesBits (hash a)) as H256. unfold len in *. lia.
Qed.

Lemma Coins_storable_spec c :
  Coins_storable c = true -> 0 <= nano c < 2 ^ 120.
Proof.
  unfold Coins_storable. rewrite andb_true_iff. lia.
Qed.

Lemma len_coinsFieldBits c :
  Coins_storable c = true ->
  len (coinsFieldBits c) = coinsBitsSize c /\ len (coinsFieldBits c) <= 124.
Proof.
  intros Hc. apply Coins_storable_spec in Hc.
  unfold coinsFieldBits, coinsBitsSize, isZero.
  destruct (Z.eqb_spec (nano c) 0).
  - rewrite length_numberBits. lia.
  - destruct (coinsByteLength_spec c ltac:(lia)) as (HL1 & _ & HL16).
    apply proj1 in HL16. specialize (HL16 ltac:(lia)).
    rewrite len_app, !length_numberBits. lia.
Qed.

Lemma storeCoins_field c this :
  Coins_storable c = true -> coinsBitsSize c <= Builder.remainder this ->
  Builder.storeCoins c this = (Ok tt, appendBits this (coinsFieldBits c)).
Proof.
  intros Hc Hroom. apply Coins_storable_spec in Hc.
  rewrite storeCoins_run. unfold coinsFieldBits, coinsBitsSize, isZero in *.
  destruct (Z.ltb_spec (nano c) 0); [lia|].
  destruct (Z.eqb_spec (nano c) 0).
  - rewrite storeBits_run. split_if; [room | reflexivity].
  - destruct (coinsByteLength_spec c ltac:(lia)) as (HL1 & _ & HL16).
    apply proj1 in HL16. specialize (HL16 ltac:(lia)).
    split_if; [lia|]. split_if; [lia | reflexivity].
Qed.

Lemma loadCoins_field c rest refs :
  Coins_storable c = true ->
  Slice.loadCoins (Slice.mkSlice (coinsFieldBits c ++ rest) refs)
  = (Ok c, Slice.mkSlice rest refs).
Proof.
  intros Hc. apply Coins_storable_spec in Hc.
  unfold coinsFieldBits, isZero.
  destruct (Z.eqb_spec (nano c) 0) as [Hzero|Hpos].
  - unfold Slice.loadCoins. rewrite bind_preloadUint.
    rewrite loadBits_prefix by reflexivity. cbn [fst].
    change (Slice.bitsToUint (Builder.numberBits 0 4) =? 0) with true. cbv iota.
    unfold bind, ret. change 4 with (len (Builder.numberBits 0 4)) at 1.
    rewrite skip_prefix. destruct c as [v]. cbn in Hzero. now subst v.
  - destruct (coinsByteLength_spec c ltac:(lia)) as (HL1 & Hfit & HL16).
    apply proj1 in HL16. specialize (HL16 ltac:(lia)).
    set (L := coinsByteLength c) in *.
    unfold Slice.loadCoins. rewrite bind_preloadUint, <- app_assoc.
    rewrite loadBits_prefix by (rewrite ?length_numberBits; lia).
    cbn [fst]. rewrite bitsToUint_exact by (rewrite length_numberBits; lia).
    rewrite bitsToZ_numberBits by lia. change (2 ^ 4) with 16.
    rewrite Z.mod_small by lia.
    destruct (Z.eqb_spec L 0); [lia|]. cbv zeta.
    unfold JsNumber.add, JsNumber.mul.
    rewrite (fround_small (L * 8)) by lia. rewrite fround_small by lia.
    assert (Hsize : len (Builder.numberBits L 4 ++ Builder.numberBits (nano c) (L * 8))
                    = 4 + L * 8)
      by (rewrite len_app, !length_numberBits; lia).
    rewrite app_assoc.
    rewrite bind_preloadBits, loadBits_prefix by (assumption || lia).
    cbn [fst]. unfold bind, ret.
    rewrite <- Hsize at 1. rewrite skip_prefix.
    f_equal. f_equal. unfold Slice.spliceFrom. cbn [fst].
    rewrite skipn_app, skipn_all2, length_numberBits_nat
      by (rewrite ?length_numberBits_nat; lia).
    change (4 - Z.to_nat 4)%nat with 0%nat. cbn [skipn app].
    unfold newCoinsHex.
    rewrite (hexToZ_bitsToHex _ (Z.to_nat (2 * L)))
      by (rewrite length_numberBits_nat; lia).
    rewrite bitsToZ_numberBits, Z.mod_small by lia.
    now destruct c.
Qed.

Lemma len_addressFieldBits address :
  match address with Some a => Address_valid a = true | None => True end ->
  len (addressFieldBits address) <= 267.
Proof.
  destruct address as [a|]; intros Hvalid; cbn [addressFieldBits].
  - apply Address_valid_spec in Hvalid as (_ & Hlen & _).
    rewrite len_addressBits by assumption. lia.
  - cbn. lia.
Qed.

Lemma storeAddress_field address this :
  match address with Some a => Address_valid a = true | None => True end ->
  len (addressFieldBits address) <= Builder.remainder this ->
  Builder.storeAddress address this
  = (Ok tt, appendBits this (addressFieldBits address)).
Proof.
  destruct address as [a|]; intros Hvalid Hroom; cbn [addressFieldBits] in *.
  - rewrite storeAddress_run by assumption.
    apply Address_valid_spec in Hvalid as (_ & Hlen & _).
    rewrite len_addressBits in Hroom by assumption.
    split_if; [lia | reflexivity].
  - cbn [Builder.storeAddress]. rewrite storeBits_run.
    split_if; [lia | reflexivity].
Qed.

Lemma field_ok_address address :
  field_ok (FAddress address) = true ->
  match address with Some a => Address_valid a = true | None => True end.
Proof. destruct address; cbn [field_ok]; auto. Qed.

Lemma storeField_ok f this :
  field_ok f = true -> len (fieldBits f) <= Builder.remainder this ->
  storeField f this = (Ok tt, appendBits this (fieldBits f)).
Proof.
  intros Hok Hroom. destruct f; cbn [storeField fieldBits] in *.
  - apply storeBit_ok. unfold len in Hroom. cbn [length] in Hroom. lia.
  - rewrite storeBits_run. split_if; [lia | reflexivity].
  - cbn [field_ok] in Hok. rewrite !andb_true_iff in Hok.
    rewrite length_numberBits in Hroom. apply storeUint_ok; lia.
  - cbn [field_ok] in Hok. rewrite !andb_true_iff in Hok.
    rewrite length_numberBits in Hroom. apply storeInt_ok; lia.
  - apply storeAddress_field; [now apply field_ok_address | assumption].
  - cbn [field_ok] in Hok. apply storeCoins_field; [assumption|].
    now rewrite <- (proj1 (len_coinsFieldBits coins Hok)).
Qed.

Lemma loadField_ok f rest refs :
  field_ok f = true ->
  loadField f (Slice.mkSlice (fieldBits f ++ rest) refs)
  = (Ok (fieldValue f), Slice.mkSlice rest refs).
Proof.
  intros Hok. destruct f; cbn [loadField fieldBits fieldValue field_ok] in *;
    unfold bind at 1, ret.
  - reflexivity.
  - rewrite loadBits_prefix; [reflexivity | reflexivity | lia].
  - rewrite !andb_true_iff in Hok. rewrite loadUint_field by lia. reflexivity.
  - rewrite !andb_true_iff in Hok. rewrite loadInt_field by lia. reflexivity.
  - rewrite loadAddress_field by (now apply field_ok_address). reflexivity.
  - rewrite loadCoins_field by assumption. reflexivity.
Qed.


Lemma loadFields_ok fs : forall rest refs,
  forallb field_ok fs = true ->
  loadFields fs (Slice.mkSlice (flat_map fieldBits fs ++ rest) refs)
  = (Ok (map fieldValue fs), Slice.mkSlice rest refs).
Proof.
  induction fs as [|f fs IH]; intros rest refs Hok; [reflexivity|].
  cbn [forallb] in Hok. apply andb_true_iff in Hok as [Hf Hfs].
  cbn [flat_map loadFields map]. rewrite <- app_assoc.
  unfold bind at 1. rewrite loadField_ok by assumption.
  unfold bind, ret. now rewrite IH.
Qed.





(** ** Message headers and StateInit *)

Lemma storeThen_ok {A} fs (k : M Builder.Builder A) : forall this,
  forallb field_ok fs = true ->
  len (flat_map fieldBits fs) <= Builder.remainder this ->
  storeThen fs k this = k (appendBits this (flat_map fieldBits fs)).
Proof.
  induction fs as [|f fs IH]; intros this Hok Hroom.
  - cbn. now rewrite appendBits_nil.
  - cbn [forallb] in Hok. apply andb_true_iff in Hok as [Hf Hfs].
    cbn [flat_map] in *. rewrite len_app in Hroom.
    pose proof (len_nonneg (flat_map fieldBits fs)).
    pose proof (len_nonneg (fieldBits f)).
    cbn [storeThen fold_right]. unfold bind at 1.
    rewrite storeField_ok by (assumption || lia).
    fold (storeThen fs k).
    rewrite IH by (rewrite ?remainder_appendBits; (assumption || lia)).
    now rewrite appendBits_app.
Qed.

Lemma len_fieldBits_le f :
  field_ok f = true ->
  len (fieldBits f)
  <= match f with
     | FBit _ => 1
     | FBits bits => len bits
     | FUint _ length => length
     | FInt _ length => length
     | FAddress _ => 267
     | FCoins _ => 124
     end.
Proof.
  intros Hok. destruct f; cbn [fieldBits field_ok] in *.
  - cbn. lia.
  - lia.
  - rewrite !andb_true_iff in Hok. rewrite length_numberBits. lia.
  - rewrite !andb_true_iff in Hok. rewrite length_numberBits. lia.
  - apply len_addressFieldBits. now apply field_ok_address.
  - now apply len_coinsFieldBits.
Qed.

(** X11. [ExtInMsgInfo$10], for a source and a destination (given, or
    the default constant) that are null or addresses with an 8-bit signed
    workchain and 32 bytes of hash, and an import fee below 2^120 (zero by
    default), never overflows: it returns a cell without refs, of at most
    660 bits, which holds the bits 1,0, the source, the destination and the
    fee in this order; [loadBits(2)], [loadAddress], [loadAddress] and
    [loadCoins] on a Slice over the cell return them and leave it empty. *)
Theorem ExtInMsgInfo_10_roundtrip Address_NULL options :
  let fs := extInFields Address_NULL options in
  forallb field_ok fs = true ->
  MsgTemplate.ExtInMsgInfo_10 Address_NULL options
  = Ok (mkCell (flat_map fieldBits fs) []) /\
  len (flat_map fieldBits fs) <= 660 /\
  loadFields fs (parse (mkCell (flat_map fieldBits fs) []))
  = (Ok (map fieldValue fs), Slice.mkSlice [] []).
Proof.
  intros fs Hok.
  assert (Hlen : len (flat_map fieldBits fs) <= 660).
  { subst fs. unfold extInFields in *. cbn [forallb] in Hok.
    rewrite !andb_true_iff in Hok. destruct Hok as (_ & Hsrc & Hdest & Hfee & _).
    apply len_fieldBits_le in Hsrc, Hdest, Hfee.
    cbn [flat_map]. rewrite !len_app. cbn [fieldBits] in *.
    change (len (@nil Bit)) with 0. change (len [true; false]) with 2. lia. }
  split; [|split; [exact Hlen|]].
  - unfold MsgTemplate.ExtInMsgInfo_10. cbv zeta.
    change (fst (storeThen fs
                   (fun builder => (Ok (Builder.cell builder), builder))
                   (Builder.new Builder.DEFAULT_SIZE))
            = Ok (mkCell (flat_map fieldBits fs) [])).
    rewrite storeThen_ok; [reflexivity | assumption |].
    unfold Builder.remainder, Builder.new, Builder.DEFAULT_SIZE.
    cbn [Builder._size Builder._bits]. change (len (@nil Bit)) with 0. lia.
  - unfold parse. cbn [cell_bits cell_refs].
    rewrite <- (app_nil_r (flat_map fieldBits fs)).
    now apply loadFields_ok.
Qed.

Lemma ExtInMsgInfo_10_roundtrip_witness :
  let a := {| workchain := -1; hash := repeat 170 32 |} in
  let options :=
    MsgTemplate.mkExtInMsgInfo_10Options None (Some a) (Some {| nano := 5 |}) in
  loadFields (extInFields None options)
    (parse (mkCell (flat_map fieldBits (extInFields None options)) []))
  = (Ok [VBits [true; false]; VAddress None; VAddress (Some a);
         VCoins {| nano := 5 |}],
     Slice.mkSlice [] []).
Proof.
  intros a options.
  apply (proj2 (proj2 (ExtInMsgInfo_10_roundtrip None options eq_refl))).
Defined.

Lemma intMsgFields_len options :
  forallb field_ok (intMsgFields options) = true ->
  len (flat_map fieldBits (intMsgFields options)) <= 1007.
Proof.
  intros Hok. unfold intMsgFields in *. cbn [forallb] in Hok.
  rewrite !andb_true_iff in Hok.
  destruct Hok as (_ & H1 & H2 & H3 & H4 & H5 & H6 & _ & H8 & H9 & H10 & H11 & _).
  apply len_fieldBits_le in H1, H2, H3, H4, H5, H6, H8, H9, H10, H11.
  cbn [flat_map]. rewrite !len_app. cbn [fieldBits] in *.
  change (len (@nil Bit)) with 0. change (len [false]) with 1. lia.
Qed.

Lemma IntMsgInfo_0_cell options :
  forallb field_ok (intMsgFields options) = true ->
  MsgTemplate.IntMsgInfo_0 options
  = Ok (mkCell (flat_map fieldBits (intMsgFields options)) []).
Proof.
  intros Hok. pose proof (intMsgFields_len options Hok) as Hlen.
  unfold MsgTemplate.IntMsgInfo_0. cbv zeta.
  change (fst (storeThen (intMsgFields options)
                 (fun builder => (Ok (Builder.cell builder), builder))
                 (Builder.new Builder.DEFAULT_SIZE))
          = Ok (mkCell (flat_map fieldBits (intMsgFields options)) [])).
  rewrite storeThen_ok; [reflexivity | assumption |].
  unfold Builder.remainder, Builder.new, Builder.DEFAULT_SIZE.
  cbn [Builder._size Builder._bits]. change (len (@nil Bit)) with 0. lia.
Qed.

(** X12. [IntMsgInfo$0], for addresses with an 8-bit signed workchain
    and 32 bytes of hash, a value and fees below 2^120, a logical time below
    2^53 and a time below 2^32 (the fees and times default to zero), never
    overflows: it returns a cell without refs, of at most 1007 bits, which
    holds the bit 0, the three flags as 1-bit signed integers (-1 for true),
    the two addresses, the value, a bit 0, the two fees, the 64-bit logical
    time and the 32-bit time, in this order; the matching loads on a Slice
    over the cell return them and leave it empty. *)
Theorem IntMsgInfo_0_roundtrip options :
  let fs := intMsgFields options in
  forallb field_ok fs = true ->
  MsgTemplate.IntMsgInfo_0 options = Ok (mkCell (flat_map fieldBits fs) []) /\
  len (flat_map fieldBits fs) <= 1007 /\
  loadFields fs (parse (mkCell (flat_map fieldBits fs) []))
  = (Ok (map fieldValue fs), Slice.mkSlice [] []).
Proof.
  intros fs Hok.
  split; [now apply IntMsgInfo_0_cell | split; [now apply intMsgFields_len|]].
  unfold parse. cbn [cell_bits cell_refs].
  rewrite <- (app_nil_r (flat_map fieldBits fs)).
  now apply loadFields_ok.
Qed.

Lemma IntMsgInfo_0_roundtrip_witness :
  let a := {| workchain := 0; hash := repeat 1 32 |} in
  let b := {| workchain := -1; hash := repeat 255 32 |} in
  let options :=
    MsgTemplate.mkIntMsgInfo_0Options None true None a b {| nano := 10 ^ 9 |}
      None None (Some 12345) None in
  MsgTemplate.IntMsgInfo_0 options
  = Ok (mkCell (flat_map fieldBits (intMsgFields options)) []) /\
  map fieldValue (intMsgFields options)
  = [VBit false; VNumber (-1); VNumber (-1); VNumber 0;
     VAddress (Some a); VAddress (Some b); VCoins {| nano := 10 ^ 9 |};
     VBit false; VCoins {| nano := 0 |}; VCoins {| nano := 0 |};
     VNumber 12345; VNumber 0].
Proof.
  intros a b options. split; [|reflexivity].
  apply (proj1 (IntMsgInfo_0_roundtrip options eq_refl)).
Defined.

(** X13. [StateInit] never throws: for every code cell and optional data
    cell it returns a cell whose bits are 0,0,1, then 1 when data is given
    and 0 otherwise, then 0, and whose refs are the code cell followed by
    the data cell when there is one. *)
Theorem StateInit_layout code data :
  MsgTemplate.StateInit (MsgTemplate.mkStateInitOptions code data)
  = Ok (mkCell [false; false; true;
                match data with Some _ => true | None => false end; false]
          (code :: match data with Some d => [d] | None => [] end)).
Proof. destruct data; reflexivity. Qed.

(** ** MessageX: the body, and cells that fit exactly *)

Lemma storeBody_run body builder :
  MsgTemplate.storeBody (Some body) builder
  = (if Builder.remainder builder >=? len (cell_bits body)
     then Builder.storeBit 0 ;; Builder.storeSlice (parse body)
     else Builder.storeBit 1 ;; Builder.storeRef body) builder.
Proof. reflexivity. Qed.

Lemma storeBody_no_room body builder :
  Builder.remainder builder <= 0 ->
  fst (MsgTemplate.storeBody body builder) = Throw BitOverflow.
Proof.
  intros Hfull. destruct body as [body|].
  - rewrite storeBody_run.
    destruct (Builder.remainder builder >=? len (cell_bits body));
      unfold bind;
      [rewrite (storeBit_b2z false) | rewrite (storeBit_b2z true)];
      (split_if; [reflexivity | lia]).
  - cbn [MsgTemplate.storeBody]. rewrite (storeBit_b2z false).
    split_if; [reflexivity | lia].
Qed.

Lemma inline_bits ok_builder cell :
  len (cell_bits cell) <= Builder.remainder ok_builder - 1 ->
  len (Builder._refs ok_builder) + len (cell_refs cell) <= 4 ->
  (Builder.storeBit 0 ;; Builder.storeSlice (parse cell)) ok_builder
  = (Ok tt, appendRefs (appendBits ok_builder (false :: cell_bits cell))
              (cell_refs cell)).
Proof.
  intros Hfit Hrefs. pose proof (len_nonneg (cell_bits cell)).
  unfold bind. rewrite (storeBit_ok false) by lia.
  rewrite storeSlice_run.
  unfold parse, Slice.bits, Slice.refs. cbn [Slice._bits Slice._refs].
  rewrite remainder_appendBits. split_if; [room|].
  split_if; [unfold appendBits in *; cbn [Builder._refs] in *; lia|].
  now rewrite appendBits_app.
Qed.

(** X14. [MessageX] without [init], on a header of at most 1022 bits and
    four refs. Let [r] be 1022 minus the bit length of the header, the room
    left after the bit 0 that says there is no init. Without a body the
    cell is the header followed by the bits 0,0. A body shorter than [r]
    bits whose refs fit is inlined after the bits 0,0. A body longer than
    [r] bits is stored by reference after the bits 0,1, when there is a bit
    of room and a free ref. A body of exactly [r] bits passes the inline
    test, but its flag bit takes one of the [r] bits, and [MessageX] throws
    the bits-overflow error. *)
Theorem MessageX_body_placement info body :
  len (cell_bits info) <= 1022 -> len (cell_refs info) <= 4 ->
  let r := 1022 - len (cell_bits info) in
  let run body := MsgTemplate.MessageX (MsgTemplate.mkMessageXOptions info None body) in
  (1 <= r ->
   run None = Ok (mkCell (cell_bits info ++ [false; false]) (cell_refs info))) /\
  (len (cell_bits body) < r -> len (cell_refs info) + len (cell_refs body) <= 4 ->
   run (Some body)
   = Ok (mkCell (cell_bits info ++ [false; false] ++ cell_bits body)
           (cell_refs info ++ cell_refs body))) /\
  (len (cell_bits body) > r -> 1 <= r -> len (cell_refs info) < 4 ->
   run (Some body)
   = Ok (mkCell (cell_bits info ++ [false; true]) (cell_refs info ++ [body]))) /\
  (len (cell_bits body) = r -> run (Some body) = Throw BitOverflow).
Proof.
  intros Hbits Hrefs r run. subst run. cbv beta.
  pose proof (len_nonneg (cell_bits body)) as Hbody.
  pose proof (storeBit_afterInfo info false Hbits) as Hflag. cbn [Z.b2z] in Hflag.
  assert (Hstart : forall body,
             MsgTemplate.MessageX (MsgTemplate.mkMessageXOptions info None body)
             = continueFrom (ret tt) body (appendBits (afterInfo info) [false])).
  { intros b. rewrite MessageX_afterInfo by lia. cbn [MsgTemplate.storeInit].
    now apply continueFrom_done. }
  rewrite !Hstart.
  set (builder := appendBits (afterInfo info) [false]) in *.
  assert (Hrem : Builder.remainder builder = r)
    by apply remainder_afterInfo_flag.
  assert (Hbit : forall x : Bit,
             1 <= r ->
             Builder.storeBit (if x then 1 else 0) builder
             = (Ok tt, appendBits builder [x])).
  { intros x Hroom. pose proof (storeBit_ok x builder ltac:(lia)) as Hx.
    now destruct x. }
  assert (Hsame : Builder._refs builder = cell_refs info) by reflexivity.
  assert (Hbuilder : Builder._bits builder = cell_bits info ++ [false]) by reflexivity.
  assert (Hcell : forall bits refs,
             Builder.cell (appendRefs (appendBits builder bits) refs)
             = mkCell (cell_bits info ++ false :: bits) (cell_refs info ++ refs)).
  { intros bits refs. unfold Builder.cell, Builder.bits, Builder.refs.
    cbn [appendRefs appendBits Builder._bits Builder._refs].
    rewrite Hbuilder, Hsame, <- app_assoc. reflexivity. }
  unfold continueFrom, bind at 1 3 5 7, ret.
  split; [|split; [|split]].
  - intros Hroom. cbn [MsgTemplate.storeBody]. unfold bind.
    rewrite (Hbit false) by lia. cbn [fst].
    pose proof (Hcell [false] []) as Hnone.
    rewrite appendRefs_nil, app_nil_r in Hnone. f_equal. exact Hnone.
  - intros Hfit Hfew. unfold bind at 1. rewrite storeBody_run, Hrem.
    destruct (Z.geb_spec r (len (cell_bits body))); [|lia].
    rewrite inline_bits by (rewrite ?Hsame; lia). cbn [fst]. now rewrite Hcell.
  - intros Hlong Hroom Hfew. unfold bind at 1. rewrite storeBody_run, Hrem.
    destruct (Z.geb_spec r (len (cell_bits body))); [lia|].
    unfold bind. rewrite (Hbit true) by lia.
    rewrite storeRef_run.
    split_if; [unfold appendBits in *; cbn [Builder._refs] in *;
               rewrite Hsame in *; lia|].
    cbn [fst]. now rewrite Hcell.
  - intros Hexact. unfold bind at 1. rewrite storeBody_run, Hrem.
    destruct (Z.geb_spec r (len (cell_bits body))); [|lia].
    unfold bind. rewrite (storeBit_b2z false).
    split_if; [reflexivity|].
    rewrite storeSlice_run.
    unfold parse, Slice.bits, Slice.refs. cbn [Slice._bits Slice._refs].
    rewrite remainder_appendBits. split_if; [reflexivity | room].
Qed.

Lemma MessageX_body_placement_witness :
  let info := mkCell (repeat true 1019) [] in
  let run body := MsgTemplate.MessageX (MsgTemplate.mkMessageXOptions info None body) in
  run None = Ok (mkCell (repeat true 1019 ++ [false; false]) []) /\
  run (Some (mkCell [true; true] []))
  = Ok (mkCell (repeat true 1019 ++ [false; false; true; true]) []) /\
  run (Some (mkCell [true; true; true; true] []))
  = Ok (mkCell (repeat true 1019 ++ [false; true]) [mkCell [true; true; true; true] []]) /\
  run (Some (mkCell [true; true; true] [])) = Throw BitOverflow.
Proof.
  intros info run. subst run. cbv beta.
  assert (Hbits : len (cell_bits info) <= 1022) by now vm_compute.
  assert (Hrefs : len (cell_refs info) <= 4) by now vm_compute.
  split; [|split; [|split]].
  - apply (proj1 (MessageX_body_placement info (mkCell [] []) Hbits Hrefs)).
    now vm_compute.
  - apply (proj1 (proj2 (MessageX_body_placement info (mkCell [true; true] [])
                           Hbits Hrefs))); now vm_compute.
  - apply (proj1 (proj2 (proj2 (MessageX_body_placement info
                                  (mkCell [true; true; true; true] [])
                                  Hbits Hrefs)))); now vm_compute.
  - apply (proj2 (proj2 (proj2 (MessageX_body_placement info
                                  (mkCell [true; true; true] [])
                                  Hbits Hrefs)))). now vm_compute.
Defined.

(** X15. When [init] is inlined and fills the Builder exactly, that is
    when its bit length equals the remainder after the presence bit minus
    one, [MessageX] throws the bits-overflow error whatever the body is,
    even when there is none: the bit that the inline test sets aside is
    taken by the inline flag of [init], and no bit is left for the flag of
    the body. *)
Theorem MessageX_init_exact_fit info init body :
  len (cell_bits info) <= 1022 -> len (cell_refs info) <= 4 ->
  len (cell_bits init) = 1022 - len (cell_bits info) - 1 ->
  len (cell_refs info) + len (cell_refs init) <= 4 ->
  MsgTemplate.MessageX (MsgTemplate.mkMessageXOptions info (Some init) body)
  = Throw BitOverflow.
Proof.
  intros Hbits Hrefs Hexact Hfew.
  rewrite MessageX_afterInfo by lia. unfold MsgTemplate.storeInit.
  rewrite (continueFrom_step _ _ _ _ _ (storeBit_afterInfo info true Hbits)).
  unfold continueFrom, bind at 1. cbv beta. rewrite remainder_afterInfo_flag.
  destruct (Z.geb_spec (1022 - len (cell_bits info) - 1) (len (cell_bits init)));
    [|lia].
  rewrite inline_bits by (rewrite ?remainder_afterInfo_flag; (lia || exact Hfew)).
  unfold bind.
  match goal with
  | |- context [MsgTemplate.storeBody body ?b] =>
      pose proof (storeBody_no_room body b) as Hfull
  end.
  rewrite remainder_appendRefs, remainder_appendBits, remainder_afterInfo_flag,
    len_cons in Hfull.
  specialize (Hfull ltac:(lia)).
  destruct (MsgTemplate.storeBody body _) as [[|e] s']; cbn [fst] in *;
    [discriminate | congruence].
Qed.

Lemma MessageX_init_exact_fit_witness :
  MsgTemplate.MessageX
    (MsgTemplate.mkMessageXOptions (mkCell (repeat false 1000) [])
       (Some (mkCell (repeat true 21) [])) None)
  = Throw BitOverflow.
Proof.
  apply (MessageX_init_exact_fit (mkCell (repeat false 1000) [])
           (mkCell (repeat true 21) []) None); now vm_compute.
Defined.

(** ** Coins: the shortest encoding *)

Lemma coinsByteLength_minimal c :
  0 < nano c -> 256 ^ (coinsByteLength c - 1) <= nano c < 256 ^ coinsByteLength c.
Proof.
  intros Hpos. unfold coinsByteLength, toNano, Builder.ceilHalf.
  destruct (toString16_length (nano c) Hpos) as (h & -> & Hlo & Hhi).
  set (L := (Z.of_nat (S h) + 1) / 2).
  assert (HL : Z.of_nat (S h) <= 2 * L <= Z.of_nat (S h) + 1).
  { subst L. pose proof (Z.div_mod (Z.of_nat (S h) + 1) 2 ltac:(lia)).
    pose proof (Z.mod_pos_bound (Z.of_nat (S h) + 1) 2 ltac:(lia)). lia. }
  assert (Hpow : forall k, 0 <= k -> 256 ^ k = 16 ^ (2 * k)).
  { intros k Hk. rewrite Z.pow_mul_r by lia. reflexivity. }
  rewrite !Hpow by lia. split.
  - apply Z.le_trans with (2 := Hlo). apply Z.pow_le_mono_r; lia.
  - apply Z.lt_le_trans with (1 := Hhi). apply Z.pow_le_mono_r; lia.
Qed.

(** X16. For a positive amount below 2^120 and a Builder with room,
    [storeCoins] writes the shortest encoding: a 4-bit length [L] between 1
    and 15 and then the amount in [L] bytes, where [L] is the least number
    of bytes that holds the amount, [256^(L-1) <= amount < 256^L]. *)
Theorem storeCoins_shortest c this :
  0 < nano c < 2 ^ 120 -> coinsBitsSize c <= Builder.remainder this ->
  exists L,
    1 <= L <= 15 /\ 256 ^ (L - 1) <= nano c < 256 ^ L /\
    Builder.storeCoins c this
    = (Ok tt, appendBits this (Builder.numberBits L 4 ++
                               Builder.numberBits (nano c) (L * 8))).
Proof.
  intros Hnano Hroom. exists (coinsByteLength c).
  destruct (coinsByteLength_spec c ltac:(lia)) as (HL1 & _ & HL16).
  apply proj1 in HL16. specialize (HL16 ltac:(lia)).
  split; [lia|]. split; [apply coinsByteLength_minimal; lia|].
  rewrite storeCoins_field; [|unfold Coins_storable; rewrite andb_true_iff; lia
                              |assumption].
  unfold coinsFieldBits, isZero.
  destruct (Z.eqb_spec (nano c) 0); [lia | reflexivity].
Qed.

Lemma storeCoins_shortest_witness :
  exists L,
    1 <= L <= 15 /\ 256 ^ (L - 1) <= 256 < 256 ^ L /\
    Builder.storeCoins {| nano := 256 |} (Builder.new 1023)
    = (Ok tt, appendBits (Builder.new 1023)
                (Builder.numberBits L 4 ++ Builder.numberBits 256 (L * 8))).
Proof.
  apply (storeCoins_shortest {| nano := 256 |} (Builder.new 1023));
    [cbn; lia | now vm_compute].
Defined.

(** ** Addresses: what loadAddress rejects and what it ignores *)

(** X17. [loadAddress] throws without consuming anything: the
    bits-overflow error on a Slice of fewer than two bits, the bad-flag
    error when the second bit is 1 (flags 01 and 11), and the bits-overflow
    error when the flag is 10 but fewer than 267 bits are left. *)
Theorem loadAddress_rejects slice :
  (len (Slice._bits slice) < 2 ->
   Slice.loadAddress slice = (Throw BitOverflow, slice)) /\
  (forall first rest, Slice._bits slice = first :: true :: rest ->
   Slice.loadAddress slice = (Throw InvalidAddressFlag, slice)) /\
  (forall rest, Slice._bits slice = true :: false :: rest -> len rest < 265 ->
   Slice.loadAddress slice = (Throw BitOverflow, slice)).
Proof.
  destruct slice as [bits refs]. cbn [Slice._bits].
  unfold Slice.loadAddress. rewrite bind_preloadBits. split; [|split].
  - intros Hshort. unfold Slice.loadBits. cbn [Slice._bits].
    destruct (Z.ltb_spec (len bits) 2); [reflexivity | lia].
  - intros first rest ->.
    rewrite (loadBits_prefix 2 [first; true] rest) by (reflexivity || lia).
    cbn [fst]. now destruct first.
  - intros rest -> Hshort.
    rewrite (loadBits_prefix 2 [true; false] rest) by (reflexivity || lia).
    cbn [fst]. change (Slice.every [true; false] Slice.FLAG_ADDRESS_NO) with false.
    change (Slice.every [true; false] Slice.FLAG_ADDRESS) with true.
    cbv iota zeta. rewrite bind_preloadBits.
    unfold Slice.loadBits. cbn [Slice._bits Slice._refs].
    rewrite !len_cons.
    match goal with
    | |- context [(_ <=? 0) || (?x <? ?y)] =>
        destruct (Z.ltb_spec x y); [reflexivity | unfold len, Bit in *; lia]
    end.
Qed.

Lemma loadAddress_rejects_witness :
  Slice.loadAddress (Slice.mkSlice [true] []) = (Throw BitOverflow, Slice.mkSlice [true] []) /\
  Slice.loadAddress (Slice.mkSlice [false; true; true] [])
  = (Throw InvalidAddressFlag, Slice.mkSlice [false; true; true] []) /\
  Slice.loadAddress (Slice.mkSlice [true; false; true] [])
  = (Throw BitOverflow, Slice.mkSlice [true; false; true] []).
Proof.
  split; [|split].
  - apply (proj1 (loadAddress_rejects (Slice.mkSlice [true] []))). cbn. lia.
  - apply (proj1 (proj2 (loadAddress_rejects (Slice.mkSlice [false; true; true] [])))
            false [true]). reflexivity.
  - apply (proj2 (proj2 (loadAddress_rejects (Slice.mkSlice [true; false; true] [])))
            [true]); [reflexivity | cbn; lia].
Defined.

(** X18. [loadAddress] ignores the anycast bit: on the flag 1,0, any
    third bit, eight bits of workchain and 256 bits of hash, it returns the
    address made of the workchain and the hash, the same whether the third
    bit is 0 or 1, and consumes the 267 bits. *)
Theorem loadAddress_ignores_anycast (anycast : Bit)
    (workchainBits hashBits rest : list Bit) refs :
  length workchainBits = 8%nat -> length hashBits = 256%nat ->
  Slice.loadAddress
    (Slice.mkSlice ([true; false] ++ [anycast] ++ workchainBits ++ hashBits ++ rest) refs)
  = (Ok (Some (newAddress (Helpers.bitsToInt8 workchainBits,
                           Helpers.bitsToHex hashBits))),
     Slice.mkSlice rest refs).
Proof.
  intros Hwc Hhash.
  set (field := [true; false] ++ [anycast] ++ workchainBits ++ hashBits).
  assert (Hfield : len field = 267).
  { subst field. unfold len, Bit in *. rewrite !length_app. cbn [length]. lia. }
  replace ([true; false] ++ [anycast] ++ workchainBits ++ hashBits ++ rest)
    with (field ++ rest) by (subst field; now rewrite <- !app_assoc).
  unfold Slice.loadAddress. rewrite bind_preloadBits.
  change (field ++ rest)
    with ([true; false] ++ ([anycast] ++ workchainBits ++ hashBits) ++ rest) at 1.
  rewrite loadBits_prefix by (reflexivity || lia).
  cbn [fst]. change (Slice.every [true; false] Slice.FLAG_ADDRESS_NO) with false.
  change (Slice.every [true; false] Slice.FLAG_ADDRESS) with true.
  cbv iota zeta. rewrite bind_preloadBits.
  rewrite loadBits_prefix by (assumption || reflexivity).
  cbn [fst]. unfold bind, ret.
  rewrite <- Hfield at 1. rewrite skip_prefix.
  subst field. now rewrite addressRaw_layout.
Qed.

Lemma loadAddress_ignores_anycast_witness :
  Slice.loadAddress
    (Slice.mkSlice ([true; false] ++ [true] ++ repeat true 8 ++ repeat false 256 ++ [])
       [])
  = (Ok (Some {| workchain := -1; hash := repeat 0 32 |}), Slice.mkSlice [] []).
Proof.
  apply (loadAddress_ignores_anycast true (repeat true 8) (repeat false 256) [] []
           eq_refl eq_refl).
Defined.

(** ** A deploy message: header, StateInit and envelope together *)

(** X19. A header built by [IntMsgInfo$0] and an init cell built by
    [StateInit] always go into one [MessageX] cell when there is no body:
    the three calls succeed, the StateInit is inlined (bits 1,0, then its
    five bits) after the header, the bit 0 for the absent body ends the
    cell, and the refs of the cell are the code cell and, when given, the
    data cell. *)
Theorem deploy_message_inlines options code data :
  forallb field_ok (intMsgFields options) = true ->
  exists header stateInit,
    MsgTemplate.IntMsgInfo_0 options = Ok header /\
    MsgTemplate.StateInit (MsgTemplate.mkStateInitOptions code data) = Ok stateInit /\
    MsgTemplate.MessageX
      (MsgTemplate.mkMessageXOptions header (Some stateInit) None)
    = Ok (mkCell (cell_bits header ++ [true; false] ++ cell_bits stateInit ++ [false])
            (cell_refs stateInit)).
Proof.
  intros Hok. pose proof (intMsgFields_len options Hok) as Hlen.
  set (header := mkCell (flat_map fieldBits (intMsgFields options)) []).
  set (stateInit :=
         mkCell [false; false; true;
                 match data with Some _ => true | None => false end; false]
           (code :: match data with Some d => [d] | None => [] end)).
  exists header, stateInit.
  split; [now apply IntMsgInfo_0_cell|].
  split; [subst stateInit; destruct data; reflexivity|].
  assert (Hbits : len (cell_bits header) <= 1007) by exact Hlen.
  assert (Hrefs : len (cell_refs header) = 0) by reflexivity.
  assert (Hinit : len (cell_bits stateInit) = 5) by reflexivity.
  assert (Hirefs : len (cell_refs stateInit) <= 2)
    by (subst stateInit; destruct data; cbn; lia).
  pose proof (len_nonneg (cell_bits header)) as Hnonneg.
  rewrite MessageX_afterInfo by lia. unfold MsgTemplate.storeInit.
  rewrite (continueFrom_step _ _ _ _ _
             (storeBit_afterInfo header true ltac:(lia))).
  unfold continueFrom, bind at 1. cbv beta. rewrite remainder_afterInfo_flag.
  destruct (Z.geb_spec (1022 - len (cell_bits header) - 1) (len (cell_bits stateInit)));
    [|lia].
  rewrite inline_bits
    by (rewrite ?remainder_afterInfo_flag;
        unfold appendBits, afterInfo; cbn [Builder._refs]; lia).
  unfold bind. cbn [MsgTemplate.storeBody].
  match goal with
  | |- context [Builder.storeBit 0 ?b] =>
      pose proof (storeBit_ok false b) as Hlast
  end.
  rewrite remainder_appendRefs, remainder_appendBits, remainder_afterInfo_flag,
    len_cons in Hlast.
  cbn [Z.b2z] in Hlast. rewrite Hlast by lia. cbn [fst].
  unfold Builder.cell, Builder.bits, Builder.refs, appendBits, appendRefs, afterInfo.
  cbn [Builder._bits Builder._refs].
  change (cell_refs header) with (@nil Cell).
  rewrite <- !app_assoc. reflexivity.
Qed.

Lemma deploy_message_inlines_witness :
  let a := {| workchain := 0; hash := repeat 9 32 |} in
  let options :=
    MsgTemplate.mkIntMsgInfo_0Options None false None a a {| nano := 1 |}
      None None None None in
  exists header stateInit,
    MsgTemplate.IntMsgInfo_0 options = Ok header /\
    MsgTemplate.StateInit
      (MsgTemplate.mkStateInitOptions (mkCell [true] []) (Some (mkCell [] [])))
    = Ok stateInit /\
    MsgTemplate.MessageX
      (MsgTemplate.mkMessageXOptions header (Some stateInit) None)
    = Ok (mkCell (cell_bits header ++ [true; false] ++ cell_bits stateInit ++ [false])
            (cell_refs stateInit)).
Proof.
  intros a options.
  apply (deploy_message_inlines options (mkCell [true] []) (Some (mkCell [] []))
           eq_refl).
Defined.

(** ** Integers: width 32, and widths of zero and below *)

(** X20. [loadInt(32)] never returns what [storeInt(value, 32)] stored:
    the shift [1 << 31] gives -2^31, every unsigned value passes the test
    [uint >= int], and the result is the unsigned value plus 2^32, that is
    [value + 2^32] for a value that is not negative and [value + 2^33] for a
    negative one. *)
Theorem loadInt_32_offset this value :
  - 2 ^ 31 <= value < 2 ^ 31 -> 32 <= Builder.remainder this ->
  fst (Builder.storeInt value 32 this) = Ok tt /\
  fst ((Slice.skip (len (Builder._bits this)) ;; Slice.loadInt 32)
         (parse (Builder.cell (snd (Builder.storeInt value 32 this)))))
  = Ok (value mod 2 ^ 32 + 2 ^ 32) /\
  value mod 2 ^ 32 + 2 ^ 32 <> value.
Proof.
  intros Hv Hroom. rewrite storeInt_ok by (cbn in *; lia). cbn [fst snd].
  pose proof (Z.mod_pos_bound value (2 ^ 32) ltac:(lia)) as Hu.
  split; [reflexivity|]. split; [|lia].
  rewrite read_after_store. unfold Slice.loadInt, bind at 1.
  rewrite loadUint_numberBits by lia. unfold ret. cbn [fst].
  unfold Slice.uintToInt. cbv zeta.
  change (JsNumber.shl 1 (32 - 1)) with (- 2 ^ 31).
  destruct (Z.geb_spec (value mod 2 ^ 32) (- 2 ^ 31)); [|lia].
  unfold JsNumber.sub, JsNumber.mul.
  rewrite (fround_small (- 2 ^ 31 * 2)) by (cbn; lia).
  rewrite fround_small by lia. reflexivity.
Qed.

Lemma loadInt_32_offset_witness :
  readBack (Builder.storeInt (-1) 32) (Slice.skip 0 ;; Slice.loadInt 32)
  = Ok ((-1) mod 2 ^ 32 + 2 ^ 32).
Proof.
  unfold readBack, Builder.DEFAULT_SIZE.
  apply (loadInt_32_offset (Builder.new 1023) (-1)); cbn; lia.
Defined.

(** X21. With a width of zero or less, [storeInt] rejects every value
    with the range error; with a negative width [storeUint] does the same;
    with the width zero [storeUint] accepts the value 0 alone and stores
    nothing. The Builder is unchanged in all these cases. *)
Theorem store_width_zero this value length :
  (length <= 0 -> Builder.storeInt value length this = (Throw RangeError, this)) /\
  (length < 0 -> Builder.storeUint value length this = (Throw RangeError, this)) /\
  (0 <= Builder.remainder this ->
   Builder.storeUint value 0 this
   = if value =? 0 then (Ok tt, this) else (Throw RangeError, this)).
Proof.
  split; [|split].
  - intros Hlen. rewrite storeInt_run, Z.pow_neg_r by lia.
    destruct (Z.ltb_spec value (- 0)); [reflexivity|].
    destruct (Z.geb_spec value 0); [reflexivity | lia].
  - intros Hlen. rewrite storeUint_run, Z.pow_neg_r by lia.
    destruct (Z.ltb_spec value 0); [reflexivity|].
    destruct (Z.geb_spec value 0); [reflexivity | lia].
  - intros Hroom. rewrite storeUint_run. change (2 ^ 0) with 1.
    destruct (Z.eqb_spec value 0) as [->|Hnz].
    + cbn [Z.ltb Z.geb Z.compare orb]. change (0 <? 0) with false. cbv iota.
      rewrite storeBits_run. change (len (Builder.numberBits 0 0)) with 0.
      split_if; [lia|]. now rewrite appendBits_nil.
    + destruct (Z.ltb_spec value 0); [reflexivity|].
      destruct (Z.geb_spec value 1); [reflexivity | lia].
Qed.

Lemma store_width_zero_witness :
  Builder.storeInt 0 0 (Builder.new 8) = (Throw RangeError, Builder.new 8) /\
  Builder.storeUint 0 (-1) (Builder.new 8) = (Throw RangeError, Builder.new 8) /\
  Builder.storeUint 0 0 (Builder.new 8) = (Ok tt, Builder.new 8).
Proof.
  split; [|split].
  - apply (proj1 (store_width_zero (Builder.new 8) 0 0)). lia.
  - apply (proj1 (proj2 (store_width_zero (Builder.new 8) 0 (-1)))). lia.
  - apply (proj2 (proj2 (store_width_zero (Builder.new 8) 0 0))). cbn. lia.
Defined.

(** ** Bytes and refs *)

Lemma bytesBits_wrap value :
  bytesBits (Helpers.Uint8Array_from value) = bytesBits value.
Proof.
  induction value as [|x value IH]; [reflexivity|].
  unfold bytesBits in *. cbn [Helpers.Uint8Array_from map flat_map].
  fold (Helpers.Uint8Array_from value). now rewrite IH, Z.mod_mod by lia.
Qed.

(** X22. [storeBytes] never throws the range error: a byte value outside
    0..255 is taken modulo 256, so storing [value] is storing the wrapped
    bytes; with room for eight bits per byte the call appends them, most
    significant bit first, and otherwise it throws the bits-overflow error
    and stores nothing. *)
Theorem storeBytes_wraps value this :
  Builder.storeBytes value this
  = Builder.storeBytes (Helpers.Uint8Array_from value) this /\
  Builder.storeBytes value this
  = if len value * 8 >? Builder.remainder this then (Throw BitOverflow, this)
    else (Ok tt, appendBits this
                   (flat_map (fun byte => Builder.numberBits (byte mod 256) 8) value)).
Proof.
  split; [|apply storeBytes_run].
  rewrite !storeBytes_run, bytesBits_wrap.
  unfold Helpers.Uint8Array_from, len. now rewrite length_map.
Qed.

(** X23. Refs come out in the order they went in: storing at most four
    refs in a new Builder succeeds, a Slice over the cell holds them in the
    same order, and [loadRef] returns the first one stored and leaves the
    others; on a cell without refs [loadRef] throws the refs-overflow
    error. *)
Theorem refs_first_in_first_out size refs :
  len refs <= 4 ->
  let builder := snd (forEach Builder.storeRef refs (Builder.new size)) in
  fst (forEach Builder.storeRef refs (Builder.new size)) = Ok tt /\
  Slice._refs (parse (Builder.cell builder)) = refs /\
  Slice.loadRef (parse (Builder.cell builder))
  = match refs with
    | [] => (Throw RefOverflow, Slice.mkSlice [] [])
    | first :: others => (Ok first, Slice.mkSlice [] others)
    end.
Proof.
  intros Hfew builder. subst builder.
  rewrite forEach_storeRef by (cbn; room). cbn [fst snd].
  split; [reflexivity|]. split; [reflexivity|].
  unfold Slice.loadRef, parse, Builder.cell, Builder.bits, Builder.refs.
  cbn. now destruct refs.
Qed.

Lemma refs_first_in_first_out_witness :
  let a := mkCell [true] [] in
  let b := mkCell [false] [] in
  Slice.loadRef
    (parse (Builder.cell (snd (forEach Builder.storeRef [a; b] (Builder.new 0)))))
  = (Ok a, Slice.mkSlice [] [b]).
Proof.
  intros a b.
  apply (proj2 (proj2 (refs_first_in_first_out 0 [a; b] ltac:(cbn; lia)))).
Defined.

(** ** MessageX: what a returned cell looks like *)

Lemma grows_refl this : within_bounds this -> grows this this.
Proof.
  intros Hin. split; [exact Hin|]. exists [], [].
  now rewrite appendBits_nil, appendRefs_nil.
Qed.

Lemma grows_trans s1 s2 s3 : grows s1 s2 -> grows s2 s3 -> grows s1 s3.
Proof.
  intros [_ (l1 & r1 & ->)] [Hin (l2 & r2 & ->)]. split; [exact Hin|].
  exists (l1 ++ l2), (r1 ++ r2). unfold appendRefs, appendBits. cbn.
  now rewrite !app_assoc.
Qed.

Lemma atomic_grows this res :
  within_bounds this -> atomic_outcome this res -> grows this (snd res).
Proof.
  intros Hin Hres.
  destruct (atomic_outcome_bounds this res Hin Hres) as (Hin' & _ & _).
  split; [exact Hin'|].
  destruct Hres as [(e & ->) | (l & r & -> & _)]; cbn [snd].
  - exists [], []. now rewrite appendBits_nil, appendRefs_nil.
  - now exists l, r.
Qed.

Lemma grows_bind {A B} (m : M Builder.Builder A) (k : A -> M Builder.Builder B) this :
  grows this (snd (m this)) ->
  (forall a this', within_bounds this' -> grows this' (snd (k a this'))) ->
  grows this (snd ((x <- m ;; k x) this)).
Proof.
  intros Hm Hk. unfold bind.
  destruct (m this) as [[a|e] this'] eqn:Hrun; cbn [snd] in *; [|exact Hm].
  apply grows_trans with (1 := Hm). apply Hk. apply Hm.
Qed.

Lemma grows_storeBit bit this :
  within_bounds this -> grows this (snd (Builder.storeBit bit this)).
Proof. intros Hin. apply atomic_grows; [exact Hin | now apply atomic_storeBit]. Qed.

Lemma grows_placement (inline : bool) cell this :
  within_bounds this ->
  grows this
    (snd ((if inline
           then Builder.storeBit 0 ;; Builder.storeSlice (parse cell)
           else Builder.storeBit 1 ;; Builder.storeRef cell) this)).
Proof.
  intros Hin. destruct inline; apply grows_bind;
    try (now apply grows_storeBit); intros _ this' Hin';
    apply atomic_grows; try exact Hin';
    [now apply atomic_storeSlice | now apply atomic_storeRef].
Qed.

Lemma grows_storeInit init this :
  within_bounds this -> grows this (snd (MsgTemplate.storeInit init this)).
Proof.
  intros Hin. destruct init as [init|]; cbn [MsgTemplate.storeInit];
    [|now apply grows_storeBit].
  apply grows_bind; [now apply grows_storeBit|].
  intros _ this' Hin'. now apply grows_placement.
Qed.

Lemma grows_storeBody body this :
  within_bounds this -> grows this (snd (MsgTemplate.storeBody body this)).
Proof.
  intros Hin. destruct body as [body|]; cbn [MsgTemplate.storeBody];
    [now apply grows_placement | now apply grows_storeBit].
Qed.

(** X24. Whatever the header, the init and the body are, a cell that
    [MessageX] returns has at most 1023 bits and four refs, and it starts
    with the bits and the refs of the header: the header is copied in, not
    referenced, and everything else comes after it. *)
Theorem MessageX_result_bounds options c :
  MsgTemplate.MessageX options = Ok c ->
  len (cell_bits c) <= 1023 /\ len (cell_refs c) <= 4 /\
  exists bits refs,
    cell_bits c = cell_bits (MsgTemplate.info options) ++ bits /\
    cell_refs c = cell_refs (MsgTemplate.info options) ++ refs.
Proof.
  unfold MsgTemplate.MessageX. intros Hrun.
  unfold bind at 1 in Hrun. rewrite storeSlice_run in Hrun.
  unfold parse at 1 2 4, Slice.bits, Slice.refs in Hrun.
  cbn [Slice._bits Slice._refs] in Hrun.
  unfold Builder.remainder, Builder.new, Builder.DEFAULT_SIZE in Hrun.
  cbn [Builder._size Builder._bits Builder._refs] in Hrun.
  change (len (@nil Bit)) with 0 in Hrun. change (len (@nil Cell)) with 0 in Hrun.
  destruct (Z.gtb_spec (len (cell_bits (MsgTemplate.info options))) (1023 - 0));
    [discriminate Hrun|].
  destruct (Z.gtb_spec (len (cell_refs (MsgTemplate.info options))) (4 - 0));
    [discriminate Hrun|].
  match type of Hrun with
  | fst (_ ?b) = _ => set (merged := b) in *
  end.
  assert (Hmerged : within_bounds merged) by (split; cbn; lia).
  unfold bind in Hrun.
  pose proof (grows_storeInit (MsgTemplate.init options) merged Hmerged) as Hinit.
  destruct (MsgTemplate.storeInit (MsgTemplate.init options) merged)
    as [[[]|e] s2]; cbn [snd] in Hinit; [|discriminate Hrun].
  pose proof (grows_storeBody (MsgTemplate.body options) s2 (proj1 Hinit)) as Hbody.
  destruct (MsgTemplate.storeBody (MsgTemplate.body options) s2)
    as [[[]|e] s3]; cbn [snd] in Hbody; [|discriminate Hrun].
  cbn [fst] in Hrun. injection Hrun as <-.
  destruct (grows_trans _ _ _ Hinit Hbody) as [[Hbits Hrefs] (l & r & ->)].
  unfold Builder.cell, Builder.bits, Builder.refs.
  cbn [cell_bits cell_refs appendRefs appendBits Builder._bits Builder._refs
       Builder._size merged] in *.
  split; [exact Hbits|]. split; [exact Hrefs|]. now exists l, r.
Qed.

Lemma MessageX_result_bounds_witness :
  let info := mkCell [true; false] [mkCell [] []] in
  let c := mkCell [true; false; false; true]
             [mkCell [] []; mkCell (repeat true 1021) []] in
  len (cell_bits c) <= 1023 /\ len (cell_refs c) <= 4 /\
  exists bits refs,
    cell_bits c = cell_bits info ++ bits /\ cell_refs c = cell_refs info ++ refs.
Proof.
  intros info c.
  apply (MessageX_result_bounds
           (MsgTemplate.mkMessageXOptions info None (Some (mkCell (repeat true 1021) [])))
           c).
  now vm_compute.
Defined.

(** ** Integers read from any Slice *)

Lemma bitsToZ_bound l : 0 <= Helpers.bitsToZ l < 2 ^ len l.
Proof.
  rewrite <- leValue_rev. pose proof (leValue_bound (rev l)) as Hb.
  unfold len in *. now rewrite length_rev in Hb.
Qed.

Lemma loadBits_Ok size slice bits :
  fst (Slice.loadBits size slice) = Ok bits ->
  0 < size /\ len bits = size /\ bits = firstn (Z.to_nat size) (Slice._bits slice).
Proof.
  unfold Slice.loadBits.
  destruct (Z.leb_spec size 0); [discriminate|].
  destruct (Z.ltb_spec (len (Slice._bits slice)) size); [discriminate|].
  cbn [orb fst]. intros Hok. injection Hok as <-.
  split; [assumption|]. split; [|reflexivity].
  unfold len in *. rewrite length_firstn. lia.
Qed.

Lemma loadUint_Ok size slice value :
  fst (Slice.loadUint size slice) = Ok value ->
  exists bits, fst (Slice.loadBits size slice) = Ok bits /\
               value = Slice.bitsToUint bits.
Proof.
  unfold Slice.loadUint, bind, ret.
  destruct (Slice.loadBits size slice) as [[bits|e] slice']; cbn [fst];
    [|discriminate].
  intros Hok. injection Hok as <-. now exists bits.
Qed.

(** X25. Whatever bits a Slice holds, a value that [loadUint(size)]
    returns for a width from 1 to 53 lies in [0, 2^size), and a value that
    [loadInt(size)] returns for a width from 1 to 31 lies in
    [-2^(size-1), 2^(size-1)). *)
Theorem load_integer_range size slice value :
  (1 <= size <= 53 -> fst (Slice.loadUint size slice) = Ok value ->
   0 <= value < 2 ^ size) /\
  (1 <= size <= 31 -> fst (Slice.loadInt size slice) = Ok value ->
   - 2 ^ (size - 1) <= value < 2 ^ (size - 1)).
Proof.
  split; intros Hsize Hok.
  - apply loadUint_Ok in Hok as (bits & Hbits & ->).
    apply loadBits_Ok in Hbits as (_ & Hlen & _).
    rewrite bitsToUint_exact by lia. rewrite <- Hlen. apply bitsToZ_bound.
  - unfold Slice.loadInt, bind at 1, ret in Hok.
    destruct (Slice.loadUint size slice) as [[uint|e] slice'] eqn:Hload;
      [|discriminate Hok].
    cbn [fst] in Hok. injection Hok as <-.
    assert (Huint : fst (Slice.loadUint size slice) = Ok uint) by now rewrite Hload.
    apply loadUint_Ok in Huint as (bits & Hbits & ->).
    apply loadBits_Ok in Hbits as (_ & Hlen & _).
    rewrite bitsToUint_exact by lia.
    pose proof (bitsToZ_bound bits) as Hb. rewrite Hlen in Hb.
    unfold Slice.uintToInt. cbv zeta. rewrite shl_1_small by lia.
    assert (Hhalf : 0 < 2 ^ (size - 1) <= 2 ^ 30)
      by (split; [apply Z.pow_pos_nonneg; lia | apply Z.pow_le_mono_r; lia]).
    assert (Hpow : 2 ^ size = 2 * 2 ^ (size - 1)).
    { rewrite <- Z.pow_succ_r by lia. f_equal. lia. }
    destruct (Z.geb_spec (Helpers.bitsToZ bits) (2 ^ (size - 1))); [|lia].
    unfold JsNumber.sub, JsNumber.mul.
    rewrite (fround_small (2 ^ (size - 1) * 2)) by lia.
    rewrite fround_small by lia. lia.
Qed.

Lemma load_integer_range_witness :
  0 <= 5 < 2 ^ 3 /\ - 2 ^ (3 - 1) <= -3 < 2 ^ (3 - 1).
Proof.
  split.
  - apply (proj1 (load_integer_range 3 (Slice.mkSlice [true; false; true; true] []) 5));
      [lia | reflexivity].
  - apply (proj2 (load_integer_range 3 (Slice.mkSlice [true; false; true; true] [])
                    (-3))); [lia | reflexivity].
Defined.

Lemma leValue_inj l1 : forall l2,
  length l1 = length l2 -> leValue l1 = leValue l2 -> l1 = l2.
Proof.
  induction l1 as [|b1 l1 IH]; intros [|b2 l2] Hlen Hval; try discriminate.
  - reflexivity.
  - cbn [length leValue] in *.
    assert (Hb : b1 = b2) by (destruct b1, b2; cbn [Z.b2z] in Hval; (reflexivity || lia)).
    subst b2. f_equal. apply IH; lia.
Qed.

Lemma numberBits_bitsToZ bits :
  Builder.numberBits (Helpers.bitsToZ bits) (len bits) = bits.
Proof.
  pose proof (len_nonneg bits) as Hlen.
  assert (Hrev : rev (Builder.numberBits (Helpers.bitsToZ bits) (len bits)) = rev bits).
  { apply leValue_inj.
    - rewrite !length_rev, length_numberBits_nat by assumption.
      unfold len. lia.
    - rewrite (leValue_rev bits), leValue_rev, bitsToZ_numberBits by assumption.
      apply Z.mod_small, bitsToZ_bound. }
  apply (f_equal (@rev Bit)) in Hrev. now rewrite !rev_involutive in Hrev.
Qed.

(** X26. Reading and writing back: for a width from 1 to 53, the value
    that [loadUint(size)] returns, stored again with [storeUint] at the same
    width, gives exactly the bits that were read: on these widths every bit
    string is the encoding of the value it decodes to. *)
Theorem uint_reencode size slice value :
  1 <= size <= 53 ->
  fst (Slice.loadUint size slice) = Ok value ->
  Builder.storeUint value size (Builder.new size)
  = (Ok tt, appendBits (Builder.new size)
              (firstn (Z.to_nat size) (Slice._bits slice))).
Proof.
  intros Hsize Hok.
  apply loadUint_Ok in Hok as (bits & Hbits & ->).
  apply loadBits_Ok in Hbits as (_ & Hlen & <-).
  rewrite bitsToUint_exact by lia.
  pose proof (bitsToZ_bound bits) as Hb. rewrite Hlen in Hb.
  rewrite storeUint_ok;
    [| lia | lia
     | unfold Builder.remainder, Builder.new; cbn [Builder._size Builder._bits];
       change (len (@nil Bit)) with 0; lia].
  now rewrite <- Hlen, numberBits_bitsToZ.
Qed.

Lemma uint_reencode_witness :
  Builder.storeUint 5 3 (Builder.new 3)
  = (Ok tt, appendBits (Builder.new 3) [true; false; true]).
Proof.
  apply (uint_reencode 3 (Slice.mkSlice [true; false; true; true] []) 5);
    [lia | reflexivity].
Defined.
